(** * Riemann Surface Encryption Visualiser: a shallow embedding of [app.js]

    The development follows the layout of the source file:
    the JavaScript number model and the [Math] functions the program calls,
    the [Complex] class, the two encryption functions
    [encryptToTorus] and [encryptToPolynomial], the mouse handlers that
    drive the orbit rotation, and [updateVisualisation].

    Numbers.  A JavaScript number is an IEEE-754 double.  Here a number is
    either a real ([Num x]) or [NaN]: arithmetic is exact (no rounding, no
    overflow), and [NaN] is produced and propagated where the source
    produces and propagates it ([x % 0], arithmetic on [NaN]).  Signed
    zeros and the infinities are not represented; see [Ndiv].

    Integer products.  A product of integers is exact in [Nmul] at any
    size, where a double holds 53 bits and overflows beyond 2^1024.  The
    two transforms start with such a product, [code * key]; the module
    [Binary64] rounds it as the source does, and [encryptToTorus64] and
    [encryptToPolynomial64] are the two transforms with this first stage
    in double precision, for integer arguments.  They agree with
    [encryptToTorus] and [encryptToPolynomial] as long as every product is
    below 2^53 ([encryptToTorus64_exact], [encryptToPolynomial64_exact]);
    statements that depend on the size of the keys are made about them. *)

From Stdlib Require Import Reals Lra Lia ZArith NArith List String Ascii Bool.
From Stdlib Require Import Decimal DecimalString.
From Equations Require Import Equations.
Import ListNotations.

Set Implicit Arguments.

(* ===================================================================== *)
(** * JavaScript numbers *)
(* ===================================================================== *)

Inductive number : Type :=
| Num (x : R)
| NaN.

Declare Scope js_scope.
Delimit Scope js_scope with js.
Bind Scope js_scope with number.

Definition of_Z (z : Z) : number := Num (IZR z).
Definition of_nat (n : nat) : number := Num (INR n).

Definition is_NaN (a : number) : bool :=
  match a with NaN => true | Num _ => false end.

(** Lifting of a total binary operation: [NaN] is absorbing. *)
Definition lift2 (f : R -> R -> R) (a b : number) : number :=
  match a, b with
  | Num x, Num y => Num (f x y)
  | _, _ => NaN
  end.

Definition lift1 (f : R -> R) (a : number) : number :=
  match a with
  | Num x => Num (f x)
  | NaN => NaN
  end.

Definition Nadd : number -> number -> number := lift2 Rplus.
Definition Nsub : number -> number -> number := lift2 Rminus.
Definition Nmul : number -> number -> number := lift2 Rmult.
Definition Nneg : number -> number := lift1 Ropp.

(** [a / b].  For a finite non-zero [a], JavaScript's [a / 0] is an
    infinity, which [number] does not represent; the clause below maps every
    quotient by zero to [NaN].  The functions embedded in this file divide
    only [(... % m)] by [m], whose dividend is already [NaN] when [m] is
    zero ([Nrem_zero], [Ndiv_rem_zero]), and [theta] by [2]; the drawing
    code divides step counters and sizes by non-zero constants, and
    [cameraDistance] by the depth (see [projectPoint]). *)
Definition Ndiv (a b : number) : number :=
  match a, b with
  | Num x, Num y => if Req_dec_T y 0 then NaN else Num (x / y)
  | _, _ => NaN
  end.

(** Rounding toward zero, the integer quotient used by [%]. *)
Definition Rtrunc (x : R) : Z :=
  if Rle_dec 0 x then Int_part x else (- Int_part (- x))%Z.

(** The remainder of [n / d] with the sign of the dividend:
    [n - d * q] where [q] is [n / d] rounded toward zero. *)
Definition fmod (n d : R) : R := n - d * IZR (Rtrunc (n / d)).

(** [a % b], written [Nrem a b]: [NaN] when the divisor is zero or an operand is [NaN]. *)
Definition Nrem (a b : number) : number :=
  match a, b with
  | Num x, Num y => if Req_dec_T y 0 then NaN else Num (fmod x y)
  | _, _ => NaN
  end.

Notation "a + b" := (Nadd a b) : js_scope.
Notation "a - b" := (Nsub a b) : js_scope.
Notation "a * b" := (Nmul a b) : js_scope.
Notation "a / b" := (Ndiv a b) : js_scope.
Notation "- a" := (Nneg a) : js_scope.

(** [a || b] on numbers: [0] and [NaN] are falsy. *)
Definition Nor (a b : number) : number :=
  match a with
  | NaN => b
  | Num x => if Req_dec_T x 0 then b else a
  end.

(* ===================================================================== *)
(** * The [Math] object *)
(* ===================================================================== *)

Module Math.

Definition PI : number := Num Rtrigo1.PI.

Definition cos : number -> number := lift1 Rtrigo_def.cos.
Definition sin : number -> number := lift1 Rtrigo_def.sin.

(** [Math.sqrt] is [NaN] on negative arguments. *)
Definition sqrt (a : number) : number :=
  match a with
  | Num x => if Rlt_dec x 0 then NaN else Num (R_sqrt.sqrt x)
  | NaN => NaN
  end.

(** [Math.hypot] on finite arguments; the source returns an infinity when
    the modulus is beyond the range of the doubles. *)
Definition hypot : number -> number -> number :=
  lift2 (fun x y => R_sqrt.sqrt (x * x + y * y)).

(** The two-argument arctangent on the reals: the angle in (-PI, PI] of
    the point (x, y).  On the negative real axis ([y = 0], [x < 0]) the
    angle is [PI]; the source returns [-PI] there when [y] is the negative
    zero, which the reals do not distinguish. *)
Definition Ratan2 (y x : R) : R :=
  if Rlt_dec 0 x then atan (y / x)
  else if Rlt_dec x 0 then
         if Rle_dec 0 y then atan (y / x) + Rtrigo1.PI
         else atan (y / x) - Rtrigo1.PI
  else if Rlt_dec 0 y then Rtrigo1.PI / 2
  else if Rlt_dec y 0 then - (Rtrigo1.PI / 2)
  else 0.

Definition atan2 : number -> number -> number := lift2 Ratan2.

Definition max : number -> number -> number := lift2 Rmax.
Definition min : number -> number -> number := lift2 Rmin.

End Math.

(* ===================================================================== *)
(** * Strings *)
(* ===================================================================== *)

(** A JavaScript string is a sequence of UTF-16 code units. *)
Definition code_unit := N.
Definition jsstring := list code_unit.

(** Literals: a Latin-1 string, one code unit per character. *)
Fixpoint lit (s : string) : jsstring :=
  match s with
  | EmptyString => []
  | String a s' => N_of_ascii a :: lit s'
  end.

(** [text.charCodeAt(i)]: the code unit at index [i], [NaN] out of range. *)
Definition charCodeAt (text : jsstring) (i : nat) : number :=
  match nth_error text i with
  | Some c => of_Z (Z.of_N c)
  | None => NaN
  end.

(* ===================================================================== *)
(** * Control: the counting [for] loop *)
(* ===================================================================== *)

(** [for (let i = i0; i < n; i++) s = body(i, s)], returning the final
    state.  Every loop of the source has this shape. *)
Equations for_lt {S : Type} (n : nat) (body : nat -> S -> S) (i : nat) (s : S)
  : S by wf (n - i) lt :=
  for_lt n body i s with lt_dec i n := {
    | left _ => for_lt n body (Datatypes.S i) (body i s);
    | right _ => s }.
Next Obligation. lia. Qed.

(** [arr.push(v)] *)
Definition push {A : Type} (arr : list A) (v : A) : list A := arr ++ [v].

(* ===================================================================== *)
(** * [class Complex]: values *)
(* ===================================================================== *)

Module Complex.

Record t : Type := mk { re : number; im : number }.

Definition add (this other : t) : t :=
  mk (re this + re other) (im this + im other).

Definition sub (this other : t) : t :=
  mk (re this - re other) (im this - im other).

Definition mul (this other : t) : t :=
  mk (re this * re other - im this * im other)
     (re this * im other + im this * re other).

(** [pow(n)]: [n] multiplications by [this], starting from [1 + 0i].  The
    exponent is an integer (the source calls [pow(3)]); the loop is not
    entered for [n <= 0]. *)
Definition pow (this : t) (n : Z) : t :=
  for_lt (Z.to_nat n) (fun _ result => mul result this) 0 (mk (Num 1) (Num 0)).

Definition sqrt (this : t) : t :=
  let r := Math.hypot (re this) (im this) in
  let sqrtMag := Math.sqrt r in
  let theta := Math.atan2 (im this) (re this) in
  let halfTheta := (theta / Num 2)%js in
  mk (sqrtMag * Math.cos halfTheta) (sqrtMag * Math.sin halfTheta).

End Complex.

(* ===================================================================== *)
(** * Encryption functions *)
(* ===================================================================== *)

Module Point3.
Record t : Type := mk { x : number; y : number; z : number }.
End Point3.

(** Body of the loop of [encryptToTorus] for one character code. *)
Definition torus_point (code key1 mod1 key2 mod2 : number) : Point3.t :=
  let R := Num 3 in
  let r := Num 1 in
  let theta := (Nrem (code * key1) mod1 / mod1 * Num 2 * Math.PI)%js in
  let phi := (Nrem (code * key2) mod2 / mod2 * Num 2 * Math.PI)%js in
  let x := ((R + r * Math.cos phi) * Math.cos theta)%js in
  let y := ((R + r * Math.cos phi) * Math.sin theta)%js in
  let z := (r * Math.sin phi)%js in
  Point3.mk x y z.

Definition encryptToTorus (text : jsstring) (key1 mod1 key2 mod2 : number)
  : list Point3.t :=
  for_lt (List.length text)
    (fun i pts =>
       let code := charCodeAt text i in
       push pts (torus_point code key1 mod1 key2 mod2))
    0 [].

(** Body of the loop of [encryptToPolynomial] for one character code. *)
Definition poly_point (c key modVal : number) : Point3.t :=
  let real := c in
  let imag := Nrem (c * key) modVal in
  let z := Complex.mk real imag in
  let w := Complex.sqrt
             (Complex.sub (Complex.pow z 3) (Complex.mk (Num 1) (Num 0))) in
  let scale := Num 0.05 in
  Point3.mk (Complex.re z * scale) (Complex.im z * scale) (Complex.re w * scale).

Definition encryptToPolynomial (text : jsstring) (key modVal : number)
  : list Point3.t :=
  for_lt (List.length text)
    (fun i pts =>
       let c := charCodeAt text i in
       push pts (poly_point c key modVal))
    0 [].

(* ===================================================================== *)
(** * [class Complex]: objects in a store *)
(* ===================================================================== *)

(** To speak about mutation, the class is also embedded with its instances
    living in a store: a reference is an index into the store, [new]
    appends an object, the constructor assigns the two fields of [this],
    and a method reads the fields of its receiver and of its argument.
    [ComplexObjFacts.add_value] and its siblings relate these methods to the
    value-level functions of [Complex] used in the rest of the file. *)
Module ComplexObj.

Record object : Type := Obj { f_re : option number; f_im : option number }.

Definition store := list object.
Definition ref := nat.

(** Computations that read and write the store. *)
Definition M (A : Type) : Type := store -> A * store.

Definition ret {A} (a : A) : M A := fun h => (a, h).
Definition bind {A B} (c : M A) (k : A -> M B) : M B :=
  fun h => let (a, h') := c h in k a h'.

Notation "x <- c ;; k" := (bind c (fun x => k))
  (at level 61, c at next level, right associativity).
Notation "c ;;; k" := (bind c (fun _ => k))
  (at level 61, right associativity).

Fixpoint update (h : store) (l : ref) (f : object -> object) : store :=
  match h, l with
  | [], _ => []
  | o :: h', O => f o :: h'
  | o :: h', S l' => o :: update h' l' f
  end.

(** A fresh object without fields. *)
Definition alloc : M ref :=
  fun h => (List.length h, h ++ [Obj None None]).

(** [l.re = v] and [l.im = v] *)
Definition set_re (l : ref) (v : number) : M unit :=
  fun h => (tt, update h l (fun o => Obj (Some v) (f_im o))).
Definition set_im (l : ref) (v : number) : M unit :=
  fun h => (tt, update h l (fun o => Obj (f_re o) (Some v))).

(** [l.re] and [l.im] in an arithmetic context: an absent field reads
    [undefined], which arithmetic converts to [NaN]. *)
Definition get_re (l : ref) : M number :=
  fun h => (match nth_error h l with
            | Some (Obj (Some v) _) => v
            | _ => NaN
            end, h).
Definition get_im (l : ref) : M number :=
  fun h => (match nth_error h l with
            | Some (Obj _ (Some v)) => v
            | _ => NaN
            end, h).

(** [constructor(re = 0, im = 0)]: an omitted argument is [None]. *)
Definition constructor (this : ref) (re im : option number) : M unit :=
  let re := match re with Some v => v | None => Num 0 end in
  let im := match im with Some v => v | None => Num 0 end in
  set_re this re ;;;
  set_im this im.

(** [new Complex(re, im)] *)
Definition new (re im : option number) : M ref :=
  this <- alloc ;;
  constructor this re im ;;;
  ret this.

Definition add (this other : ref) : M ref :=
  a <- get_re this ;; b <- get_re other ;;
  c <- get_im this ;; d <- get_im other ;;
  new (Some (a + b)%js) (Some (c + d)%js).

Definition sub (this other : ref) : M ref :=
  a <- get_re this ;; b <- get_re other ;;
  c <- get_im this ;; d <- get_im other ;;
  new (Some (a - b)%js) (Some (c - d)%js).

Definition mul (this other : ref) : M ref :=
  a <- get_re this ;; b <- get_re other ;;
  c <- get_im this ;; d <- get_im other ;;
  new (Some (a * b - c * d)%js) (Some (a * d + c * b)%js).

Definition pow (this : ref) (n : Z) : M ref :=
  fun h =>
    for_lt (Z.to_nat n)
      (fun _ (st : ref * store) => let (result, h') := st in mul result this h')
      0 (new (Some (Num 1)) (Some (Num 0)) h).

Definition sqrt (this : ref) : M ref :=
  a <- get_re this ;; b <- get_im this ;;
  let r := Math.hypot a b in
  let sqrtMag := Math.sqrt r in
  let theta := Math.atan2 b a in
  let halfTheta := (theta / Num 2)%js in
  new (Some (sqrtMag * Math.cos halfTheta)%js)
      (Some (sqrtMag * Math.sin halfTheta)%js).

(** The complex value held by the object at [l]. *)
Definition read (h : store) (l : ref) : Complex.t :=
  Complex.mk (fst (get_re l h)) (fst (get_im l h)).

(** What a call may do to the store [h]: its result [r] is a reference
    that [h] did not hold, and every object of [h] is left as it was. *)
Definition returns_new (h : store) (out : ref * store) : Prop :=
  let (r, h') := out in
  (List.length h <= r < List.length h')%nat /\
  forall l, (l < List.length h)%nat -> nth_error h' l = nth_error h l.

End ComplexObj.

(* ===================================================================== *)
(** * Program state and mouse interaction *)
(* ===================================================================== *)

(** A mouse event as delivered by the browser; the coordinates are finite. *)
Record MouseEvent : Type := { clientX : R; clientY : R }.

Record Mouse : Type := { mouse_x : number; mouse_y : number }.

(** The top-level [let] variables of [app.js]. *)
Record Globals : Type := {
  rotX : number;
  rotY : number;
  dragging : bool;
  lastMouse : Mouse;
  torusData : list Point3.t;
  polyData : list Point3.t;
  showTorus : bool;
  showComplex : bool
}.

Definition initial : Globals := {|
  rotX := Num 0.4;
  rotY := Num 0.8;
  dragging := false;
  lastMouse := {| mouse_x := Num 0; mouse_y := Num 0 |};
  torusData := [];
  polyData := [];
  showTorus := true;
  showComplex := true
|}.

Definition set_view (g : Globals) (rx ry : number) (d : bool) (m : Mouse)
  : Globals :=
  {| rotX := rx; rotY := ry; dragging := d; lastMouse := m;
     torusData := torusData g; polyData := polyData g;
     showTorus := showTorus g; showComplex := showComplex g |}.

Definition mousedown (e : MouseEvent) (g : Globals) : Globals :=
  let dragging := true in
  let lastMouse := {| mouse_x := Num (clientX e); mouse_y := Num (clientY e) |} in
  set_view g (rotX g) (rotY g) dragging lastMouse.

Definition mousemove (e : MouseEvent) (g : Globals) : Globals :=
  if negb (dragging g) then g else
  let dx := (Num (clientX e) - mouse_x (lastMouse g))%js in
  let dy := (Num (clientY e) - mouse_y (lastMouse g))%js in
  let rotY := (rotY g + dx * Num 0.005)%js in
  let rotX := (rotX g + dy * Num 0.005)%js in
  let limit := (Math.PI / Num 2 - Num 0.1)%js in
  let rotX := Math.max (- limit)%js (Math.min limit rotX) in
  let lastMouse := {| mouse_x := Num (clientX e); mouse_y := Num (clientY e) |} in
  set_view g rotX rotY (dragging g) lastMouse.

(** The handler shared by ['mouseup'] and ['mouseleave']. *)
Definition mouseup_or_leave (g : Globals) : Globals :=
  set_view g (rotX g) (rotY g) false (lastMouse g).

Inductive pointer_event : Type :=
| MouseDown (e : MouseEvent)
| MouseMove (e : MouseEvent)
| MouseUp
| MouseLeave.

Definition dispatch (g : Globals) (ev : pointer_event) : Globals :=
  match ev with
  | MouseDown e => mousedown e g
  | MouseMove e => mousemove e g
  | MouseUp => mouseup_or_leave g
  | MouseLeave => mouseup_or_leave g
  end.

Definition run_events (g : Globals) (evs : list pointer_event) : Globals :=
  fold_left dispatch evs g.

(** The bound of the vertical tilt, [Math.PI / 2 - 0.1]. *)
Definition limit : R := PI / 2 - 0.1.

(* ===================================================================== *)
(** * [updateVisualisation] *)
(* ===================================================================== *)

(** The status summary of the external interface:
    [{characterCount, activeSurfaceNames}]. *)
Record StatusSummary : Type := {
  characterCount : nat;
  activeSurfaceNames : list string
}.

(** What a call of [updateVisualisation] can hand back to its caller. *)
Inductive jsvalue : Type :=
| Vundefined
| Vsummary (s : StatusSummary).

(** The part of the page the function reads and writes: the [value] of the
    text inputs, the [checked] state of the two checkboxes, and the
    [textContent] of the status element. *)
Record Document : Type := {
  inputText_value : jsstring;
  key1_value : jsstring;
  mod1_value : jsstring;
  key2_value : jsstring;
  mod2_value : jsstring;
  key3_value : jsstring;
  mod3_value : jsstring;
  showTorus_checked : bool;
  showComplex_checked : bool;
  status_textContent : string
}.

Definition set_status (doc : Document) (s : string) : Document :=
  {| inputText_value := inputText_value doc;
     key1_value := key1_value doc; mod1_value := mod1_value doc;
     key2_value := key2_value doc; mod2_value := mod2_value doc;
     key3_value := key3_value doc; mod3_value := mod3_value doc;
     showTorus_checked := showTorus_checked doc;
     showComplex_checked := showComplex_checked doc;
     status_textContent := s |}.

(** Decimal rendering of a length inside a template literal. *)
Definition string_of_nat (n : nat) : string :=
  DecimalString.NilEmpty.string_of_uint (Nat.to_uint n).

Definition dquote : string := String (ascii_of_nat 34) EmptyString.

Definition prompt_message : string :=
  ("Enter some text and click " ++ dquote ++ "Encrypt & Visualise" ++ dquote
   ++ ".")%string.

(** The status line for a non-empty text of [n] characters. *)
Definition encoded_message (n : nat) (surfaces : list string) : string :=
  ("Encoded " ++ string_of_nat n ++ " character"
   ++ (if Nat.eqb n 1 then EmptyString else "s")
   ++ " on " ++ String.concat " and " surfaces ++ ".")%string.

Section UpdateVisualisation.

(** The global [parseInt(string, radix)] of the host. *)
Variable parseInt : jsstring -> number -> number.

Definition updateVisualisation (doc : Document) (g : Globals)
  : jsvalue * Globals * Document :=
  let text := inputText_value doc in
  let key1 := Nor (parseInt (key1_value doc) (Num 10)) (Num 1) in
  let mod1 := Nor (parseInt (mod1_value doc) (Num 10)) (Num 2) in
  let key2 := Nor (parseInt (key2_value doc) (Num 10)) (Num 1) in
  let mod2 := Nor (parseInt (mod2_value doc) (Num 10)) (Num 2) in
  let key3 := Nor (parseInt (key3_value doc) (Num 10)) (Num 1) in
  let mod3 := Nor (parseInt (mod3_value doc) (Num 10)) (Num 2) in
  let showTorus := showTorus_checked doc in
  let showComplex := showComplex_checked doc in
  let torusData : list Point3.t := [] in
  let polyData : list Point3.t := [] in
  let torusData :=
    if showTorus && (0 <? List.length text)%nat
    then encryptToTorus text key1 mod1 key2 mod2 else torusData in
  let polyData :=
    if showComplex && (0 <? List.length text)%nat
    then encryptToPolynomial text key3 mod3 else polyData in
  let surfaces : list string := [] in
  let surfaces := if showTorus then push surfaces "torus"%string
                  else surfaces in
  let surfaces := if showComplex then push surfaces "polynomial surface"%string
                  else surfaces in
  let textContent :=
    if (0 <? List.length text)%nat
    then encoded_message (List.length text) surfaces
    else prompt_message in
  (Vundefined,
   {| rotX := rotX g; rotY := rotY g;
      dragging := dragging g; lastMouse := lastMouse g;
      torusData := torusData; polyData := polyData;
      showTorus := showTorus; showComplex := showComplex |},
   set_status doc textContent).

End UpdateVisualisation.

(** A host [parseInt] for radix 10, used to run the function on a concrete
    page: leading blanks are skipped, a sign is read, then the longest run
    of decimal digits; without a digit the result is [NaN].  It stands for
    the host's function on the pages it is run on below, whose fields hold
    a few ASCII digits: it skips the ASCII blanks only (the host also skips
    the other Unicode white space), and it keeps every digit, where the
    host rounds a number of more than 53 bits and returns an infinity
    beyond the range of the doubles. *)
Module DecimalHost.

Definition is_blank (c : code_unit) : bool :=
  ((c =? 32) || (c =? 9) || (c =? 10) || (c =? 11) || (c =? 12) || (c =? 13))%N.

Fixpoint skip_blanks (s : jsstring) : jsstring :=
  match s with
  | c :: s' => if is_blank c then skip_blanks s' else s
  | [] => []
  end.

Definition is_digit (c : code_unit) : bool := ((48 <=? c) && (c <=? 57))%N.

Fixpoint digits (s : jsstring) (acc : option Z) : option Z :=
  match s with
  | c :: s' =>
      if is_digit c
      then digits s' (Some (10 * match acc with Some v => v | None => 0 end
                            + (Z.of_N c - 48))%Z)
      else acc
  | [] => acc
  end.

Definition parseInt (s : jsstring) (radix : number) : number :=
  let s := skip_blanks s in
  let '(sign, s) :=
    match s with
    | 45%N :: s' => ((-1)%Z, s')
    | 43%N :: s' => (1%Z, s')
    | _ => (1%Z, s)
    end in
  match digits s None with
  | Some v => of_Z (sign * v)
  | None => NaN
  end.

End DecimalHost.

(** A page: the text Hi, keys 3, 2, 1 and moduli 5, 7, 2, both surfaces
    shown, an empty status line. *)
Definition sample_page : Document := {|
  inputText_value := lit "Hi";
  key1_value := lit "3"; mod1_value := lit "5";
  key2_value := lit "2"; mod2_value := lit "7";
  key3_value := lit "1"; mod3_value := lit "2";
  showTorus_checked := true;
  showComplex_checked := true;
  status_textContent := EmptyString
|}.

(** The names the status line gives to the surfaces that are shown. *)
Definition active_surface_names (doc : Document) : list string :=
  ((if showTorus_checked doc then ["torus"%string] else [])
   ++ (if showComplex_checked doc then ["polynomial surface"%string] else [])).

(** The call returned a status summary object. *)
Definition is_status_summary (v : jsvalue) : Prop :=
  exists s : StatusSummary, v = Vsummary s.

(* ===================================================================== *)
(** * Reference formulas of the specification *)
(* ===================================================================== *)

(** The torus point of a character code [c] as the specification writes
    it, with [mod] the mathematical (non-negative) residue. *)
Definition spec_torus_point (c key1 mod1 key2 mod2 : Z) : Point3.t :=
  let theta := (2 * PI * IZR ((c * key1) mod mod1) / IZR mod1)%R in
  let phi := (2 * PI * IZR ((c * key2) mod mod2) / IZR mod2)%R in
  Point3.mk (Num ((3 + 1 * cos phi) * cos theta))
            (Num ((3 + 1 * cos phi) * sin theta))
            (Num (1 * sin phi)).

(** The polynomial point of a character code [c] where the imaginary part
    is the residue [imag]: [z = c + i*imag], [w = sqrt(z^3 - 1)]. *)
Definition poly_point_of (c imag : Z) : Point3.t :=
  let z := Complex.mk (of_Z c) (of_Z imag) in
  let w := Complex.sqrt
             (Complex.sub (Complex.pow z 3) (Complex.mk (Num 1) (Num 0))) in
  Point3.mk (Complex.re z * Num 0.05) (Complex.im z * Num 0.05)
            (Complex.re w * Num 0.05).

(** The specification's formula read with the mathematical residue. *)
Definition spec_poly_point (c key modVal : Z) : Point3.t :=
  poly_point_of c ((c * key) mod modVal).

(** The code of the [i]-th character as an integer. *)
Definition code_of (c : code_unit) : Z := Z.of_N c.

Local Open Scope R_scope.

(* ===================================================================== *)
(** * Predicates used in the statements *)
(* ===================================================================== *)

(** Two numbers agree within [eps]; a [NaN] agrees with nothing. *)
Definition near (eps : R) (a b : number) : Prop :=
  match a, b with
  | Num u, Num v => Rabs (u - v) <= eps
  | _, _ => False
  end.

Definition near_point (eps : R) (p q : Point3.t) : Prop :=
  near eps (Point3.x p) (Point3.x q) /\
  near eps (Point3.y p) (Point3.y q) /\
  near eps (Point3.z p) (Point3.z q).

(** Reference points for the text AB with key1 = 3, mod1 = 5, key2 = 2,
    mod2 = 7.  The codes are 65 and 66; 65*3 = 195 leaves 0 modulo 5 and
    65*2 = 130 leaves 4 modulo 7; 66*3 = 198 leaves 3 modulo 5 and
    66*2 = 132 leaves 6 modulo 7. *)
Definition reference_AB : list Point3.t :=
  [ Point3.mk (Num ((3 + cos (2 * PI * 4 / 7)) * cos (2 * PI * 0 / 5)))
              (Num ((3 + cos (2 * PI * 4 / 7)) * sin (2 * PI * 0 / 5)))
              (Num (sin (2 * PI * 4 / 7)));
    Point3.mk (Num ((3 + cos (2 * PI * 6 / 7)) * cos (2 * PI * 3 / 5)))
              (Num ((3 + cos (2 * PI * 6 / 7)) * sin (2 * PI * 3 / 5)))
              (Num (sin (2 * PI * 6 / 7))) ].

(** The radial band of the torus with R = 3 and r = 1. *)
Definition in_torus_band (p : Point3.t) : Prop :=
  exists x y z : R,
    p = Point3.mk (Num x) (Num y) (Num z) /\
    (3 - 1) * (3 - 1) <= x * x + y * y <= (3 + 1) * (3 + 1) /\
    Rabs z <= 1.

Definition all_NaN (p : Point3.t) : Prop :=
  Point3.x p = NaN /\ Point3.y p = NaN /\ Point3.z p = NaN.

(** C10 as stated: with a zero modulus, the coordinates of every returned
    point are [NaN]. *)
Definition zero_modulus_claim : Prop :=
  forall (text : jsstring) (key1 mod1 key2 mod2 key modVal : number),
    List.length (encryptToTorus text key1 mod1 key2 mod2) = List.length text /\
    List.length (encryptToPolynomial text key modVal) = List.length text /\
    (mod1 = Num 0 \/ mod2 = Num 0 ->
     Forall all_NaN (encryptToTorus text key1 mod1 key2 mod2)) /\
    (modVal = Num 0 -> Forall all_NaN (encryptToPolynomial text key modVal)).

(** The clamp [Math.max(-limit, Math.min(limit, v))]. *)
Definition clamp (v : R) : R := Rmax (- limit) (Rmin limit v).

(** Every number of the view is finite and the tilt is within the limit. *)
Definition view_ok (g : Globals) : Prop :=
  (exists r, rotX g = Num r /\ - limit <= r <= limit) /\
  (exists r, rotY g = Num r) /\
  (exists a b, lastMouse g = {| mouse_x := Num a; mouse_y := Num b |}).

(** A press at the origin followed by a horizontal move of [d] pixels. *)
Definition drag_right (d : R) : list pointer_event :=
  [MouseDown {| clientX := 0; clientY := 0 |};
   MouseMove {| clientX := d; clientY := 0 |}].

(** C8 as stated: the call returns a status summary object. *)
Definition recompute_returns_summary : Prop :=
  forall (parseInt : jsstring -> number -> number) (doc : Document) (g : Globals),
    is_status_summary (fst (fst (updateVisualisation parseInt doc g))).

(* ===================================================================== *)
(** * Integer products in double precision *)
(* ===================================================================== *)

(** The exact arithmetic above departs from the source where the product
    [code * key] of two integers does not fit the 53 bits of a double: the
    source then works with the rounded product, or with an infinity.  This
    section embeds that stage of the two loops as it runs on doubles, for
    integer arguments (integers that are doubles); the rest of the loop
    body is as before. *)
Module Binary64.

Definition prec : Z := 53.
Definition emax : Z := 1024.

(** The integer with at most 53 significant bits that is nearest to [n],
    a tie going to the even significand: the double nearest to [n]. *)
Definition round (n : Z) : Z :=
  let a := Z.abs n in
  let e := (Z.log2 a + 1 - prec)%Z in
  if (e <=? 0)%Z then n
  else
    let q := Z.shiftr a e in
    let r := (a - Z.shiftl q e)%Z in
    let half := Z.shiftl 1 (e - 1) in
    let q' := if (half <? r)%Z || ((r =? half)%Z && Z.odd q)
              then (q + 1)%Z else q in
    (Z.sgn n * Z.shiftl q' e)%Z.

(** The rounded value is beyond the largest double. *)
Definition overflows (n : Z) : bool := (2 ^ emax <=? Z.abs (round n))%Z.

(** The product of the integer doubles [a] and [b]; [None] is an
    infinity. *)
Definition mul (a b : Z) : option Z :=
  if overflows (a * b) then None else Some (round (a * b)).

End Binary64.

(** [(code * key) % m] on integer doubles: the product is rounded, the
    remainder is exact, and the remainder of an infinity is [NaN]. *)
Definition rem64 (code key m : Z) : number :=
  match Binary64.mul code key with
  | Some p => Nrem (of_Z p) (of_Z m)
  | None => NaN
  end.

(** Body of the loop of [encryptToTorus], the two products in double
    precision. *)
Definition torus_point64 (code key1 mod1 key2 mod2 : Z) : Point3.t :=
  let R := Num 3 in
  let r := Num 1 in
  let theta := (rem64 code key1 mod1 / of_Z mod1 * Num 2 * Math.PI)%js in
  let phi := (rem64 code key2 mod2 / of_Z mod2 * Num 2 * Math.PI)%js in
  let x := ((R + r * Math.cos phi) * Math.cos theta)%js in
  let y := ((R + r * Math.cos phi) * Math.sin theta)%js in
  let z := (r * Math.sin phi)%js in
  Point3.mk x y z.

(** The point pushed for a character code that is [NaN] (an index outside
    the text, which the loop never reaches). *)
Definition nan_point : Point3.t := Point3.mk NaN NaN NaN.

Definition encryptToTorus64 (text : jsstring) (key1 mod1 key2 mod2 : Z)
  : list Point3.t :=
  for_lt (List.length text)
    (fun i pts =>
       push pts
         match nth_error text i with
         | Some c => torus_point64 (code_of c) key1 mod1 key2 mod2
         | None => nan_point
         end)
    0 [].

(** Body of the loop of [encryptToPolynomial], the product in double
    precision. *)
Definition poly_point64 (c key modVal : Z) : Point3.t :=
  let real := of_Z c in
  let imag := rem64 c key modVal in
  let z := Complex.mk real imag in
  let w := Complex.sqrt
             (Complex.sub (Complex.pow z 3) (Complex.mk (Num 1) (Num 0))) in
  let scale := Num 0.05 in
  Point3.mk (Complex.re z * scale) (Complex.im z * scale) (Complex.re w * scale).

Definition encryptToPolynomial64 (text : jsstring) (key modVal : Z)
  : list Point3.t :=
  for_lt (List.length text)
    (fun i pts =>
       push pts
         match nth_error text i with
         | Some c => poly_point64 (code_of c) key modVal
         | None => nan_point
         end)
    0 [].

(** Every product [code * key] over the text is below 2^53 in absolute
    value, hence exact as a double. *)
Definition exact_products (key : Z) (text : jsstring) : Prop :=
  Forall (fun c => (Z.abs (code_of c * key) < 2 ^ 53)%Z) text.

(** No product [code * key] over the text overflows. *)
Definition finite_products (key : Z) (text : jsstring) : Prop :=
  Forall (fun c => Binary64.overflows (code_of c * key) = false) text.

(** The point of the torus of radii 3 and 1 at the angles [theta] (around
    the axis) and [phi] (around the tube). *)
Definition torus_at (theta phi : R) : Point3.t :=
  Point3.mk (Num ((3 + 1 * cos phi) * cos theta))
            (Num ((3 + 1 * cos phi) * sin theta))
            (Num (1 * sin phi)).

(** The angle the source computes from a product that does not overflow. *)
Definition angle64 (code key m : Z) : R :=
  IZR (Z.rem (Binary64.round (code * key)) m) / IZR m * 2 * PI.



(* ===================================================================== *)
(** * Projection and drawing *)
(* ===================================================================== *)

(** The canvas element: its pixel size, as [resizeCanvas] sets it. *)
Record Canvas : Type := { canvas_width : nat; canvas_height : nat }.

(** [resizeCanvas]: the canvas takes the client size of its container. *)
Definition resizeCanvas (clientWidth clientHeight : nat) (cv : Canvas) : Canvas :=
  {| canvas_width := clientWidth; canvas_height := clientHeight |}.

Definition cameraDistance : number := Num 10.
Definition scaleFactor : number := Num 120.

Module Projected.
Record t : Type := mk { sx : number; sy : number; depth : number }.
End Projected.

(** [projectPoint(p)], reading [rotX], [rotY] and the canvas size.  The
    perspective scale is [cameraDistance / zCam]; when [zCam] is zero the
    source gets an infinite scale, which [number] does not represent (see
    [Ndiv]), so the facts proved about this function are about points whose
    depth is not zero. *)
Definition projectPoint (g : Globals) (cv : Canvas) (p : Point3.t) : Projected.t :=
  let cosX := Math.cos (rotX g) in
  let sinX := Math.sin (rotX g) in
  let cosY := Math.cos (rotY g) in
  let sinY := Math.sin (rotY g) in
  let y1 := (Point3.y p * cosX - Point3.z p * sinX)%js in
  let z1 := (Point3.y p * sinX + Point3.z p * cosX)%js in
  let x2 := (Point3.x p * cosY + z1 * sinY)%js in
  let z2 := (- Point3.x p * sinY + z1 * cosY)%js in
  let zCam := (z2 + cameraDistance)%js in
  let scale := (cameraDistance / zCam)%js in
  let sx := (x2 * scale * scaleFactor + of_nat (canvas_width cv) / Num 2)%js in
  let sy := (- y1 * scale * scaleFactor + of_nat (canvas_height cv) / Num 2)%js in
  Projected.mk sx sy zCam.

(** The operations the program performs on the 2D drawing context, in the
    order it performs them. *)
Inductive canvas_op : Type :=
| set_strokeStyle (color : string)
| set_lineWidth (w : number)
| set_fillStyle (color : string)
| clearRect (x y w h : number)
| beginPath
| moveTo (x y : number)
| lineTo (x y : number)
| stroke
| arc (x y radius startAngle endAngle : number)
| fill.

(** The context is the log of the operations performed on it. *)
Definition context := list canvas_op.

(** [for (let i = i0; i <= n; i++)]: on integers, [i <= n] is [i < n + 1]. *)
Definition for_le {S : Type} (n : nat) (body : nat -> S -> S) (i : nat) (s : S) : S :=
  for_lt (Datatypes.S n) body i s.

(** A point of the reference torus, as both loops of [drawTorusGrid]
    compute it from the two step counters. *)
Definition grid_point (majorSteps minorSteps i j : nat) : Point3.t :=
  let R := Num 3 in
  let r := Num 1 in
  let theta := (of_nat i / of_nat majorSteps * Num 2 * Math.PI)%js in
  let phi := (of_nat j / of_nat minorSteps * Num 2 * Math.PI)%js in
  let x := ((R + r * Math.cos phi) * Math.cos theta)%js in
  let y := ((R + r * Math.cos phi) * Math.sin theta)%js in
  let z := (r * Math.sin phi)%js in
  Point3.mk x y z.

(** [if (k === 0) ctx.moveTo(...); else ctx.lineTo(...);] *)
Definition move_or_line (k : nat) (proj : Projected.t) (ctx : context) : context :=
  if Nat.eqb k 0
  then push ctx (moveTo (Projected.sx proj) (Projected.sy proj))
  else push ctx (lineTo (Projected.sx proj) (Projected.sy proj)).

Definition drawTorusGrid (g : Globals) (cv : Canvas) (ctx : context) : context :=
  let ctx := push ctx (set_strokeStyle "#dddddd") in
  let ctx := push ctx (set_lineWidth (Num 1)) in
  let majorSteps := 24%nat in
  let minorSteps := 12%nat in
  let ctx :=
    for_le majorSteps
      (fun i ctx =>
         let ctx := push ctx beginPath in
         let ctx :=
           for_le minorSteps
             (fun j ctx =>
                let proj := projectPoint g cv (grid_point majorSteps minorSteps i j) in
                move_or_line j proj ctx)
             0 ctx in
         push ctx stroke)
      0 ctx in
  for_le minorSteps
    (fun j ctx =>
       let ctx := push ctx beginPath in
       let ctx :=
         for_le majorSteps
           (fun i ctx =>
              let proj := projectPoint g cv (grid_point majorSteps minorSteps i j) in
              move_or_line i proj ctx)
           0 ctx in
       push ctx stroke)
    0 ctx.

(** [drawDataSet(pts, color)].  Reading [projected[i]] outside the array
    gives [undefined], and taking [.sx] of it throws: the result is [None]
    when that happens. *)
Definition drawDataSet (g : Globals) (cv : Canvas) (pts : list Point3.t)
           (color : string) (ctx : context) : option context :=
  if Nat.eqb (List.length pts) 0 then Some ctx else
  let projected := map (fun p => projectPoint g cv p) pts in
  let ctx := push ctx (set_strokeStyle color) in
  let ctx := push ctx (set_lineWidth (Num 2)) in
  let ctx := push ctx beginPath in
  match nth_error projected 0 with
  | None => None
  | Some first =>
      let ctx := push ctx (moveTo (Projected.sx first) (Projected.sy first)) in
      let octx :=
        for_lt (List.length projected)
          (fun i (octx : option context) =>
             match octx with
             | None => None
             | Some ctx =>
                 match nth_error projected i with
                 | None => None
                 | Some p => Some (push ctx (lineTo (Projected.sx p) (Projected.sy p)))
                 end
             end)
          1 (Some ctx) in
      match octx with
      | None => None
      | Some ctx =>
          let ctx := push ctx stroke in
          let ctx := push ctx (set_fillStyle color) in
          Some (fold_left
                  (fun ctx p =>
                     let ctx := push ctx beginPath in
                     let ctx := push ctx (arc (Projected.sx p) (Projected.sy p)
                                              (Num 4) (Num 0) (Num 2 * Math.PI)%js) in
                     push ctx fill)
                  projected ctx)
      end
  end.

(** [draw()]: one frame. *)
Definition draw (g : Globals) (cv : Canvas) (ctx : context) : option context :=
  let ctx := push ctx (clearRect (Num 0) (Num 0)
                         (of_nat (canvas_width cv)) (of_nat (canvas_height cv))) in
  let ctx := drawTorusGrid g cv ctx in
  match (if showTorus g then drawDataSet g cv (torusData g) "#0066cc" ctx
         else Some ctx) with
  | None => None
  | Some ctx =>
      if showComplex g then drawDataSet g cv (polyData g) "#cc3300" ctx
      else Some ctx
  end.

(** Whatever can happen to the program after it has started: a mouse event
    on the canvas, or a run of [updateVisualisation] on the page as it is
    then (a click on the button, a change of a checkbox). *)
Inductive action : Type :=
| Pointer (ev : pointer_event)
| Recompute (doc : Document).

Definition perform (parseInt : jsstring -> number -> number)
           (g : Globals) (a : action) : Globals :=
  match a with
  | Pointer ev => dispatch g ev
  | Recompute doc => snd (fst (updateVisualisation parseInt doc g))
  end.

(** The ['change'] handler of the first checkbox: it assigns [showTorus]
    and calls [updateVisualisation]. *)
Definition on_showTorus_change (parseInt : jsstring -> number -> number)
           (doc : Document) (g : Globals) : jsvalue * Globals * Document :=
  let g := {| rotX := rotX g; rotY := rotY g;
              dragging := dragging g; lastMouse := lastMouse g;
              torusData := torusData g; polyData := polyData g;
              showTorus := showTorus_checked doc; showComplex := showComplex g |} in
  updateVisualisation parseInt doc g.

(** The ['change'] handler of the second checkbox. *)
Definition on_showComplex_change (parseInt : jsstring -> number -> number)
           (doc : Document) (g : Globals) : jsvalue * Globals * Document :=
  let g := {| rotX := rotX g; rotY := rotY g;
              dragging := dragging g; lastMouse := lastMouse g;
              torusData := torusData g; polyData := polyData g;
              showTorus := showTorus g; showComplex := showComplex_checked doc |} in
  updateVisualisation parseInt doc g.

(** ** Predicates used in the further statements *)

Definition finite (a : number) : Prop := exists r : R, a = Num r.

(** Two code units that leave the same residues modulo both moduli. *)
Definition congruent_codes (mod1 mod2 : Z) (c c' : code_unit) : Prop :=
  (code_of c mod mod1 = code_of c' mod mod1)%Z /\
  (code_of c mod mod2 = code_of c' mod mod2)%Z.

(** The program after a sequence of actions. *)
Definition run_actions (parseInt : jsstring -> number -> number)
           (g : Globals) (actions : list action) : Globals :=
  fold_left (perform parseInt) actions g.

(** What holds of the variables of the program whatever has happened: the
    view is finite with a bounded tilt, a hidden surface has no stored
    points, and two shown surfaces have as many points as each other. *)
Definition program_ok (g : Globals) : Prop :=
  view_ok g /\
  (showTorus g = false -> torusData g = []) /\
  (showComplex g = false -> polyData g = []) /\
  (showTorus g = true -> showComplex g = true ->
   List.length (torusData g) = List.length (polyData g)).

(** The coordinates of a point after the rotation about the X axis by
    [rx] and then about the Y axis by [ry]. *)
Definition rotated (rx ry x y z : R) : R * R * R :=
  let y1 := y * cos rx - z * sin rx in
  let z1 := y * sin rx + z * cos rx in
  let x2 := x * cos ry + z1 * sin ry in
  let z2 := - x * sin ry + z1 * cos ry in
  (x2, y1, z2).

(** The operation that adds the [k]-th vertex to the current path. *)
Definition path_op (k : nat) (proj : Projected.t) : canvas_op :=
  if Nat.eqb k 0
  then moveTo (Projected.sx proj) (Projected.sy proj)
  else lineTo (Projected.sx proj) (Projected.sy proj).

(** The three operations that draw the marker of a projected point. *)
Definition marker_ops (p : Projected.t) : list canvas_op :=
  [beginPath;
   arc (Projected.sx p) (Projected.sy p) (Num 4) (Num 0) (Num 2 * Math.PI)%js;
   fill].

Definition origin : Point3.t := Point3.mk (Num 0) (Num 0) (Num 0).

(** One ring of the grid: a path through the vertices [f 0 .. f n]. *)
Definition ring_ops (n : nat) (f : nat -> Projected.t) : list canvas_op :=
  [beginPath] ++ map (fun k => path_op k (f k)) (seq 0 (S n)) ++ [stroke].

(** Everything [drawTorusGrid] does to the context: the two settings, the
    25 rings of constant theta, then the 13 rings of constant phi. *)
Definition grid_ops (g : Globals) (cv : Canvas) : list canvas_op :=
  [set_strokeStyle "#dddddd"; set_lineWidth (Num 1)]
  ++ List.concat (map (fun i =>
                    ring_ops 12 (fun j => projectPoint g cv (grid_point 24 12 i j)))
                 (seq 0 25))
  ++ List.concat (map (fun j =>
                    ring_ops 24 (fun i => projectPoint g cv (grid_point 24 12 i j)))
                 (seq 0 13)).

Definition lineTo_of (p : Projected.t) : canvas_op :=
  lineTo (Projected.sx p) (Projected.sy p).

(** Everything [drawDataSet] does to the context for the projected points
    [projected]: a polyline through them, then one marker on each. *)
Definition dataset_ops (color : string) (projected : list Projected.t)
  : list canvas_op :=
  match projected with
  | [] => []
  | first :: rest =>
      [set_strokeStyle color; set_lineWidth (Num 2); beginPath;
       moveTo (Projected.sx first) (Projected.sy first)]
      ++ map lineTo_of rest
      ++ [stroke; set_fillStyle color]
      ++ List.concat (map marker_ops projected)
  end.

Definition finite_vertex (v : number * number) : Prop :=
  finite (fst v) /\ finite (snd v).

(** The sample page with the torus checkbox cleared. *)
Definition page_torus_hidden : Document := {|
  inputText_value := lit "Hi";
  key1_value := lit "3"; mod1_value := lit "5";
  key2_value := lit "2"; mod2_value := lit "7";
  key3_value := lit "1"; mod3_value := lit "2";
  showTorus_checked := false;
  showComplex_checked := true;
  status_textContent := EmptyString
|}.

(** The projection is finite and its depth lies between [lo] and [hi]. *)
Definition projected_within (lo hi : R) (q : Projected.t) : Prop :=
  exists sx sy d : R,
    q = Projected.mk (Num sx) (Num sy) (Num d) /\ lo <= d <= hi.

(** The vertices of the paths of a log: the arguments of its [moveTo] and
    [lineTo] operations, in order. *)
Definition vertex_of (op : canvas_op) : option (number * number) :=
  match op with
  | moveTo x y => Some (x, y)
  | lineTo x y => Some (x, y)
  | _ => None
  end.

Fixpoint vertices (ops : list canvas_op) : list (number * number) :=
  match ops with
  | [] => []
  | op :: ops' =>
      match vertex_of op with
      | Some v => v :: vertices ops'
      | None => vertices ops'
      end
  end.

(** The centres of the markers of a log: the first two arguments of its
    [arc] operations, in order. *)
Fixpoint markers (ops : list canvas_op) : list (number * number) :=
  match ops with
  | [] => []
  | arc x y _ _ _ :: ops' => (x, y) :: markers ops'
  | _ :: ops' => markers ops'
  end.

Definition is_stroke (op : canvas_op) : bool :=
  match op with stroke => true | _ => false end.

Definition is_moveTo (op : canvas_op) : bool :=
  match op with moveTo _ _ => true | _ => false end.

Definition is_lineTo (op : canvas_op) : bool :=
  match op with lineTo _ _ => true | _ => false end.

Definition screen_of (q : Projected.t) : number * number :=
  (Projected.sx q, Projected.sy q).

(* ===================================================================== *)
(** * Numbers: basic facts *)
(* ===================================================================== *)

Lemma Ndiv_Num (x y : R) : y <> 0 -> Ndiv (Num x) (Num y) = Num (x / y).
Proof.
  intros Hy. unfold Ndiv. destruct (Req_dec_T y 0); [contradiction | reflexivity].
Qed.

Lemma Nrem_Num (x y : R) : y <> 0 -> Nrem (Num x) (Num y) = Num (fmod x y).
Proof.
  intros Hy. unfold Nrem. destruct (Req_dec_T y 0); [contradiction | reflexivity].
Qed.

Lemma Nrem_zero (a : number) : Nrem a (Num 0) = NaN.
Proof.
  destruct a as [x|]; simpl; [|reflexivity].
  destruct (Req_dec_T 0 0) as [_|H]; [reflexivity | exfalso; apply H; reflexivity].
Qed.

Lemma Ndiv_rem_zero (a : number) : Ndiv (Nrem a (Num 0)) (Num 0) = NaN.
Proof. rewrite Nrem_zero. reflexivity. Qed.

Lemma Nmul_NaN_l (a : number) : Nmul NaN a = NaN.
Proof. reflexivity. Qed.

Lemma Nmul_NaN_r (a : number) : Nmul a NaN = NaN.
Proof. destruct a; reflexivity. Qed.

Lemma Nadd_NaN_r (a : number) : Nadd a NaN = NaN.
Proof. destruct a; reflexivity. Qed.

Lemma Nsub_NaN_r (a : number) : Nsub a NaN = NaN.
Proof. destruct a; reflexivity. Qed.

Lemma Rtrunc_opp (x : R) : Rtrunc (- x) = (- Rtrunc x)%Z.
Proof.
  unfold Rtrunc.
  destruct (Rle_dec 0 (- x)) as [Hn|Hn], (Rle_dec 0 x) as [Hp|Hp].
  - assert (x = 0) by lra. subst x. rewrite Ropp_0.
    change 0 with (INR 0). rewrite Int_part_INR. reflexivity.
  - lia.
  - rewrite Ropp_involutive. reflexivity.
  - lra.
Qed.

(** On a non-negative dividend and a positive divisor, the truncated real
    quotient is the integer quotient. *)
Lemma Int_part_div_nonneg (a m : Z) :
  (0 <= a)%Z -> (0 < m)%Z -> Int_part (IZR a / IZR m) = (a / m)%Z.
Proof.
  intros Ha Hm. symmetry. apply Int_part_spec.
  pose proof (Z.div_mod a m ltac:(lia)) as Hdm.
  pose proof (Z.mod_pos_bound a m Hm) as [Hr0 Hr1].
  assert (HmR : 0 < IZR m) by (apply IZR_lt; exact Hm).
  assert (Heq : IZR a = IZR m * IZR (a / m) + IZR (a mod m)).
  { rewrite <- mult_IZR, <- plus_IZR. f_equal. exact Hdm. }
  apply IZR_le in Hr0. apply IZR_lt in Hr1.
  assert (Hq : IZR a / IZR m = IZR (a / m) + IZR (a mod m) / IZR m).
  { rewrite Heq at 1. field. lra. }
  rewrite Hq.
  assert (0 <= IZR (a mod m) / IZR m < 1).
  { split.
    - apply Rmult_le_pos; [lra | left; apply Rinv_0_lt_compat; lra].
    - apply Rmult_lt_reg_r with (IZR m); [lra|].
      unfold Rdiv. rewrite Rmult_assoc, Rinv_l by lra. lra. }
  lra.
Qed.

Lemma Rtrunc_quot (a m : Z) :
  (0 < m)%Z -> Rtrunc (IZR a / IZR m) = Z.quot a m.
Proof.
  intros Hm.
  assert (HmR : 0 < IZR m) by (apply IZR_lt; exact Hm).
  destruct (Z_le_gt_dec 0 a) as [Ha|Ha].
  - unfold Rtrunc. destruct (Rle_dec 0 (IZR a / IZR m)) as [_|Hn].
    + rewrite Int_part_div_nonneg by assumption.
      symmetry. apply Z.quot_div_nonneg; lia.
    + exfalso. apply Hn. apply Rmult_le_pos;
        [apply IZR_le; exact Ha | left; apply Rinv_0_lt_compat; exact HmR].
  - replace (IZR a / IZR m) with (- (IZR (- a) / IZR m))
      by (rewrite opp_IZR; field; lra).
    rewrite Rtrunc_opp.
    unfold Rtrunc. destruct (Rle_dec 0 (IZR (- a) / IZR m)) as [_|Hn].
    + rewrite Int_part_div_nonneg by lia.
      rewrite <- Z.quot_div_nonneg by lia.
      rewrite Z.quot_opp_l by lia. lia.
    + exfalso. apply Hn. apply Rmult_le_pos;
        [apply IZR_le; lia | left; apply Rinv_0_lt_compat; exact HmR].
Qed.

(** [%] on integers is the remainder with the sign of the dividend. *)
Lemma fmod_IZR (a m : Z) :
  (0 < m)%Z -> fmod (IZR a) (IZR m) = IZR (Z.rem a m).
Proof.
  intros Hm. unfold fmod. rewrite Rtrunc_quot by exact Hm.
  rewrite <- mult_IZR, <- minus_IZR. f_equal.
  pose proof (Z.quot_rem' a m). lia.
Qed.

Lemma Nrem_of_Z (a m : Z) :
  (1 <= m)%Z -> Nrem (of_Z a) (of_Z m) = of_Z (Z.rem a m).
Proof.
  intros Hm. unfold of_Z.
  rewrite Nrem_Num by (apply not_0_IZR; lia).
  rewrite fmod_IZR by lia. reflexivity.
Qed.

Lemma Nmul_of_Z (a b : Z) : Nmul (of_Z a) (of_Z b) = of_Z (a * b).
Proof. unfold of_Z, Nmul, lift2. rewrite mult_IZR. reflexivity. Qed.

(** The remainder and the residue differ by zero or by the modulus. *)
Lemma rem_mod_cases (a m : Z) :
  (1 <= m)%Z -> Z.rem a m = (a mod m)%Z \/ Z.rem a m = (a mod m - m)%Z.
Proof.
  intros Hm.
  pose proof (Z.quot_rem' a m) as Hq.
  pose proof (Z.div_mod a m ltac:(lia)) as Hd.
  pose proof (Z.mod_pos_bound a m ltac:(lia)) as Hb.
  destruct (Z_le_gt_dec 0 a) as [Ha|Ha].
  - left. apply Z.rem_mod_nonneg; lia.
  - pose proof (Z.rem_bound_pos_neg a m ltac:(lia) ltac:(lia)) as Hr.
    assert (Hk : (m * (a / m - Z.quot a m) = Z.rem a m - a mod m)%Z) by lia.
    assert (Hc : (a / m - Z.quot a m = 0 \/ a / m - Z.quot a m = -1)%Z) by nia.
    destruct Hc as [Hc|Hc]; rewrite Hc in Hk; [left | right]; lia.
Qed.

(* ===================================================================== *)
(** * The loops *)
(* ===================================================================== *)

Lemma for_lt_step {S : Type} (n : nat) (body : nat -> S -> S) (i : nat) (s : S) :
  (i < n)%nat -> for_lt n body i s = for_lt n body (Datatypes.S i) (body i s).
Proof.
  intros Hi. rewrite for_lt_equation_1.
  destruct (lt_dec i n); [reflexivity | contradiction].
Qed.

Lemma for_lt_done {S : Type} (n : nat) (body : nat -> S -> S) (i : nat) (s : S) :
  (n <= i)%nat -> for_lt n body i s = s.
Proof.
  intros Hi. rewrite for_lt_equation_1.
  destruct (lt_dec i n); [lia | reflexivity].
Qed.

(** A loop that pushes one element per index builds the list of these
    elements, in index order, after what the array already held. *)
Lemma for_lt_push {A : Type} (n : nat) (f : nat -> A) (i : nat) (pts : list A) :
  for_lt n (fun j acc => push acc (f j)) i pts = pts ++ map f (seq i (n - i)).
Proof.
  remember (n - i)%nat as k eqn:Hk.
  revert i pts Hk. induction k as [|k IH]; intros i pts Hk.
  - rewrite for_lt_done by lia. simpl. rewrite app_nil_r. reflexivity.
  - rewrite for_lt_step by lia. rewrite IH by lia.
    unfold push. simpl. rewrite <- app_assoc. reflexivity.
Qed.

(** Reading every index of a string visits its code units in order. *)
Lemma map_charCodeAt (B : Type) (g : number -> B) (text : jsstring) :
  map (fun i => g (charCodeAt text i)) (seq 0 (List.length text))
  = map (fun c => g (of_Z (code_of c))) text.
Proof.
  induction text as [|c text IH]; [reflexivity|].
  simpl. f_equal. rewrite <- seq_shift, map_map. exact IH.
Qed.

Lemma encryptToTorus_map (text : jsstring) (key1 mod1 key2 mod2 : number) :
  encryptToTorus text key1 mod1 key2 mod2
  = map (fun c => torus_point (of_Z (code_of c)) key1 mod1 key2 mod2) text.
Proof.
  unfold encryptToTorus.
  rewrite (for_lt_push (List.length text)
             (fun i => torus_point (charCodeAt text i) key1 mod1 key2 mod2)).
  rewrite Nat.sub_0_r. simpl.
  apply (map_charCodeAt (fun code => torus_point code key1 mod1 key2 mod2)).
Qed.

Lemma encryptToPolynomial_map (text : jsstring) (key modVal : number) :
  encryptToPolynomial text key modVal
  = map (fun c => poly_point (of_Z (code_of c)) key modVal) text.
Proof.
  unfold encryptToPolynomial.
  rewrite (for_lt_push (List.length text)
             (fun i => poly_point (charCodeAt text i) key modVal)).
  rewrite Nat.sub_0_r. simpl.
  apply (map_charCodeAt (fun c => poly_point c key modVal)).
Qed.

(* ===================================================================== *)
(** * The torus *)
(* ===================================================================== *)

Lemma cos_minus_2PI (x : R) : cos (x - 2 * PI) = cos x.
Proof.
  rewrite <- (cos_period (x - 2 * PI) 1). f_equal. simpl. ring.
Qed.

Lemma sin_minus_2PI (x : R) : sin (x - 2 * PI) = sin x.
Proof.
  rewrite <- (sin_period (x - 2 * PI) 1). f_equal. simpl. ring.
Qed.

(** The angle computed by the source from an integer key and modulus. *)
Lemma torus_angle (c key m : Z) :
  (1 <= m)%Z ->
  (Nrem (of_Z c * of_Z key) (of_Z m) / of_Z m * Num 2 * Math.PI)%js
  = Num (IZR (Z.rem (c * key) m) / IZR m * 2 * PI).
Proof.
  intros Hm. rewrite Nmul_of_Z, Nrem_of_Z by exact Hm.
  unfold of_Z. rewrite Ndiv_Num by (apply not_0_IZR; lia). reflexivity.
Qed.

(** The remainder of [%] and the mathematical residue give angles that
    differ by a full turn at most. *)
Lemma angle_rem_mod (a m : Z) :
  (1 <= m)%Z ->
  cos (IZR (Z.rem a m) / IZR m * 2 * PI) = cos (2 * PI * IZR (a mod m) / IZR m) /\
  sin (IZR (Z.rem a m) / IZR m * 2 * PI) = sin (2 * PI * IZR (a mod m) / IZR m).
Proof.
  intros Hm.
  assert (HmR : IZR m <> 0) by (apply not_0_IZR; lia).
  destruct (rem_mod_cases a Hm) as [E|E]; rewrite E.
  - split; f_equal; field; exact HmR.
  - rewrite minus_IZR.
    replace ((IZR (a mod m) - IZR m) / IZR m * 2 * PI)
      with (2 * PI * IZR (a mod m) / IZR m - 2 * PI) by (field; exact HmR).
    split; [apply cos_minus_2PI | apply sin_minus_2PI].
Qed.

Lemma torus_point_spec (c key1 mod1 key2 mod2 : Z) :
  (1 <= mod1)%Z -> (1 <= mod2)%Z ->
  torus_point (of_Z c) (of_Z key1) (of_Z mod1) (of_Z key2) (of_Z mod2)
  = spec_torus_point c key1 mod1 key2 mod2.
Proof.
  intros H1 H2. unfold torus_point, spec_torus_point.
  rewrite !torus_angle by assumption.
  destruct (angle_rem_mod (c * key1) H1) as [Hc1 Hs1].
  destruct (angle_rem_mod (c * key2) H2) as [Hc2 Hs2].
  cbn. rewrite Hc1, Hs1, Hc2, Hs2. reflexivity.
Qed.

Lemma near_refl (eps x : R) : 0 <= eps -> near eps (Num x) (Num x).
Proof.
  intros He. simpl. rewrite Rminus_diag, Rabs_R0. exact He.
Qed.

Lemma encryptToTorus_AB :
  encryptToTorus (lit "AB") (of_Z 3) (of_Z 5) (of_Z 2) (of_Z 7) = reference_AB.
Proof.
  rewrite encryptToTorus_map. simpl map. unfold code_of.
  rewrite !torus_point_spec by lia.
  unfold spec_torus_point, reference_AB.
  replace ((65 * 3) mod 5)%Z with 0%Z by reflexivity.
  replace ((65 * 2) mod 7)%Z with 4%Z by reflexivity.
  replace ((66 * 3) mod 5)%Z with 3%Z by reflexivity.
  replace ((66 * 2) mod 7)%Z with 6%Z by reflexivity.
  rewrite !Rmult_1_l. reflexivity.
Qed.

(* ===================================================================== *)
(** * Integer products in double precision: facts *)
(* ===================================================================== *)

(** An integer below 2^53 in absolute value is a double. *)
Lemma round_exact (n : Z) : (Z.abs n < 2 ^ 53)%Z -> Binary64.round n = n.
Proof.
  intros Hn. unfold Binary64.round, Binary64.prec. cbv zeta.
  destruct (Z.eq_dec n 0) as [->|Hnz]; [reflexivity|].
  assert (Hlog : (Z.log2 (Z.abs n) < 53)%Z)
    by (apply Z.log2_lt_pow2; [lia | exact Hn]).
  destruct (Z.leb_spec (Z.log2 (Z.abs n) + 1 - 53) 0); [reflexivity | lia].
Qed.

Lemma overflows_exact (n : Z) :
  (Z.abs n < 2 ^ 53)%Z -> Binary64.overflows n = false.
Proof.
  intros Hn. unfold Binary64.overflows. rewrite round_exact by exact Hn.
  apply Z.leb_gt.
  assert (H : (2 ^ 53 < 2 ^ Binary64.emax)%Z)
    by (apply Z.pow_lt_mono_r; unfold Binary64.emax; lia).
  lia.
Qed.

Lemma mul_exact (a b : Z) :
  (Z.abs (a * b) < 2 ^ 53)%Z -> Binary64.mul a b = Some (a * b)%Z.
Proof.
  intros H. unfold Binary64.mul.
  rewrite overflows_exact, round_exact by exact H. reflexivity.
Qed.

(** The remainder of a product that does not overflow. *)
Lemma rem64_finite (c key m : Z) :
  (1 <= m)%Z -> Binary64.overflows (c * key) = false ->
  rem64 c key m = of_Z (Z.rem (Binary64.round (c * key)) m).
Proof.
  intros Hm Hf. unfold rem64, Binary64.mul. rewrite Hf.
  apply Nrem_of_Z. exact Hm.
Qed.

(** The remainder of an exact product is the remainder of the integers. *)
Lemma rem64_exact (c key m : Z) :
  (1 <= m)%Z -> (Z.abs (c * key) < 2 ^ 53)%Z ->
  rem64 c key m = of_Z (Z.rem (c * key) m).
Proof.
  intros Hm He. rewrite rem64_finite by (try apply overflows_exact; assumption).
  rewrite round_exact by exact He. reflexivity.
Qed.


(** Within the exact range the double-precision stage is the product and
    remainder of the exact model. *)
Lemma rem64_Nrem (c key m : Z) :
  (Z.abs (c * key) < 2 ^ 53)%Z ->
  rem64 c key m = Nrem (of_Z c * of_Z key) (of_Z m).
Proof.
  intros He. unfold rem64. rewrite mul_exact by exact He.
  rewrite Nmul_of_Z. reflexivity.
Qed.

Lemma map_nth_error_seq {A B : Type} (f : A -> B) (d : B) (l : list A) :
  map (fun i => match nth_error l i with Some a => f a | None => d end)
      (seq 0 (List.length l))
  = map f l.
Proof.
  induction l as [|a l IH]; [reflexivity|].
  simpl. f_equal. rewrite <- seq_shift, map_map. exact IH.
Qed.

Lemma encryptToTorus64_map (text : jsstring) (key1 mod1 key2 mod2 : Z) :
  encryptToTorus64 text key1 mod1 key2 mod2
  = map (fun c => torus_point64 (code_of c) key1 mod1 key2 mod2) text.
Proof.
  unfold encryptToTorus64.
  rewrite (for_lt_push (List.length text)
             (fun i => match nth_error text i with
                       | Some c => torus_point64 (code_of c) key1 mod1 key2 mod2
                       | None => nan_point
                       end)).
  rewrite Nat.sub_0_r. simpl.
  apply (map_nth_error_seq
           (fun c => torus_point64 (code_of c) key1 mod1 key2 mod2)).
Qed.

Lemma encryptToPolynomial64_map (text : jsstring) (key modVal : Z) :
  encryptToPolynomial64 text key modVal
  = map (fun c => poly_point64 (code_of c) key modVal) text.
Proof.
  unfold encryptToPolynomial64.
  rewrite (for_lt_push (List.length text)
             (fun i => match nth_error text i with
                       | Some c => poly_point64 (code_of c) key modVal
                       | None => nan_point
                       end)).
  rewrite Nat.sub_0_r. simpl.
  apply (map_nth_error_seq (fun c => poly_point64 (code_of c) key modVal)).
Qed.

(** Within the exact range the two transforms on doubles are the
    transforms of the exact model. *)
Lemma encryptToTorus64_exact (text : jsstring) (key1 mod1 key2 mod2 : Z) :
  exact_products key1 text -> exact_products key2 text ->
  encryptToTorus64 text key1 mod1 key2 mod2
  = encryptToTorus text (of_Z key1) (of_Z mod1) (of_Z key2) (of_Z mod2).
Proof.
  intros H1 H2. rewrite encryptToTorus64_map, encryptToTorus_map.
  apply map_ext_in. intros c Hc.
  unfold exact_products in H1, H2. rewrite Forall_forall in H1, H2.
  unfold torus_point64, torus_point.
  rewrite !rem64_Nrem by auto. reflexivity.
Qed.

Lemma encryptToPolynomial64_exact (text : jsstring) (key modVal : Z) :
  exact_products key text ->
  encryptToPolynomial64 text key modVal
  = encryptToPolynomial text (of_Z key) (of_Z modVal).
Proof.
  intros H. rewrite encryptToPolynomial64_map, encryptToPolynomial_map.
  apply map_ext_in. intros c Hc.
  unfold exact_products in H. rewrite Forall_forall in H.
  unfold poly_point64, poly_point.
  rewrite rem64_Nrem by auto. reflexivity.
Qed.

(** The point of a character none of whose products overflows. *)
Lemma torus_point64_angles (c key1 mod1 key2 mod2 : Z) :
  (1 <= mod1)%Z -> (1 <= mod2)%Z ->
  Binary64.overflows (c * key1) = false ->
  Binary64.overflows (c * key2) = false ->
  torus_point64 c key1 mod1 key2 mod2
  = torus_at (angle64 c key1 mod1) (angle64 c key2 mod2).
Proof.
  intros H1 H2 F1 F2. unfold torus_point64, torus_at, angle64.
  rewrite !rem64_finite by assumption.
  unfold of_Z. rewrite !Ndiv_Num by (apply not_0_IZR; lia). reflexivity.
Qed.


Lemma torus_at_band (theta phi : R) : in_torus_band (torus_at theta phi).
Proof.
  unfold torus_at.
  exists ((3 + 1 * cos phi) * cos theta),
         ((3 + 1 * cos phi) * sin theta), (1 * sin phi).
  split; [reflexivity|].
  pose proof (COS_bound phi) as [Hc0 Hc1].
  pose proof (SIN_bound phi) as [Hs0 Hs1].
  pose proof (sin2_cos2 theta) as Hu. unfold Rsqr in Hu.
  assert (Hsq : (3 + 1 * cos phi) * cos theta * ((3 + 1 * cos phi) * cos theta)
                + (3 + 1 * cos phi) * sin theta * ((3 + 1 * cos phi) * sin theta)
                = (3 + cos phi) * (3 + cos phi)).
  { transitivity ((3 + cos phi) * (3 + cos phi)
                  * (sin theta * sin theta + cos theta * cos theta)); [ring|].
    rewrite Hu. ring. }
  rewrite Hsq. split; [split; nra|].
  rewrite Rmult_1_l. apply Rabs_le. lra.
Qed.

Lemma torus_at_0_0 : torus_at 0 0 = Point3.mk (Num 4) (Num 0) (Num 0).
Proof.
  unfold torus_at. rewrite cos_0, sin_0. f_equal; f_equal; ring.
Qed.

Lemma angle64_zero (c key m : Z) :
  Z.rem (Binary64.round (c * key)) m = 0%Z -> angle64 c key m = 0.
Proof.
  intros E. unfold angle64. rewrite E. unfold Rdiv. ring.
Qed.

(** C1.  The source multiplies doubles, so it departs from the formula
    theta = 2*pi*((c*key1) mod mod1)/mod1 once [c * key1] needs more than
    53 bits.  For the text A (code 65) with key1 = 2^53 - 1 and mod1 = 2
    (key2 = 1, mod2 = 1): the product 65 * (2^53 - 1) is odd, but the
    source computes the even double 585467951558164352, whose remainder
    modulo 2 is 0; it returns the point (4, 0, 0), at theta = 0, where the
    formula gives theta = pi and the point (-4, 0, 0).  The two are not
    within 1e-9 of each other.  For the text AB with keys 3, 2 and moduli
    5, 7 the source agrees with the reference values within 1e-9. *)
Theorem encryptToTorus64_rounded_product :
  Forall2 (near_point 1e-9) (encryptToTorus64 (lit "AB") 3 5 2 7) reference_AB /\
  Binary64.mul 65 9007199254740991 = Some 585467951558164352%Z /\
  ((65 * 9007199254740991) mod 2 = 1)%Z /\
  encryptToTorus64 (lit "A") 9007199254740991 2 1 1
  = [Point3.mk (Num 4) (Num 0) (Num 0)] /\
  spec_torus_point 65 9007199254740991 2 1 1
  = Point3.mk (Num (-4)) (Num 0) (Num 0) /\
  ~ near_point 1e-9 (Point3.mk (Num 4) (Num 0) (Num 0))
      (spec_torus_point 65 9007199254740991 2 1 1).
Proof.
  assert (Hs : spec_torus_point 65 9007199254740991 2 1 1
               = Point3.mk (Num (-4)) (Num 0) (Num 0)).
  { unfold spec_torus_point.
    replace ((65 * 9007199254740991) mod 2)%Z with 1%Z by reflexivity.
    replace ((65 * 1) mod 1)%Z with 0%Z by reflexivity.
    replace (2 * PI * 1 / 2) with PI by field.
    replace (2 * PI * 0 / 1) with 0 by field.
    rewrite cos_PI, sin_PI, cos_0, sin_0. f_equal; f_equal; ring. }
  split.
  { rewrite encryptToTorus64_exact by (repeat constructor).
    rewrite encryptToTorus_AB. unfold reference_AB.
    apply Forall2_cons; [| apply Forall2_cons; [| apply Forall2_nil]];
      (split; [| split]); apply near_refl; lra. }
  split; [vm_compute; reflexivity|]. split; [reflexivity|].
  split; [|split; [exact Hs|]].
  - rewrite encryptToTorus64_map.
    change (map (fun c => torus_point64 (code_of c) 9007199254740991 2 1 1) (lit "A"))
      with [torus_point64 65 9007199254740991 2 1 1].
    rewrite torus_point64_angles; try lia; try (vm_compute; reflexivity).
    rewrite !angle64_zero by (vm_compute; reflexivity).
    rewrite torus_at_0_0. reflexivity.
  - rewrite Hs. intros [Hx _]. cbn in Hx.
    replace (4 - -4) with 8 in Hx by lra.
    rewrite Rabs_pos_eq in Hx by lra. lra.
Qed.




Lemma encryptToTorus_nil (key1 mod1 key2 mod2 : number) :
  encryptToTorus [] key1 mod1 key2 mod2 = [].
Proof. unfold encryptToTorus. apply for_lt_done. simpl. lia. Qed.

Lemma encryptToPolynomial_nil (key modVal : number) :
  encryptToPolynomial [] key modVal = [].
Proof. unfold encryptToPolynomial. apply for_lt_done. simpl. lia. Qed.

(** C5.  On the empty text both transforms return the empty sequence,
    whatever the keys and moduli are (zero and [NaN] included); no error
    is involved: the loop body is never entered. *)
Theorem encrypt_empty_text (key1 mod1 key2 mod2 key modVal : number) :
  encryptToTorus [] key1 mod1 key2 mod2 = [] /\
  encryptToPolynomial [] key modVal = [].
Proof.
  split; [apply encryptToTorus_nil | apply encryptToPolynomial_nil].
Qed.

(* ===================================================================== *)
(** * Complex arithmetic *)
(* ===================================================================== *)

Lemma for_lt_iter {S : Type} (n : nat) (f : S -> S) (i : nat) (s : S) :
  for_lt n (fun _ => f) i s = Nat.iter (n - i) f s.
Proof.
  remember (n - i)%nat as k eqn:Hk.
  revert i s Hk. induction k as [|k IH]; intros i s Hk.
  - apply for_lt_done. lia.
  - rewrite for_lt_step by lia. rewrite IH by lia.
    rewrite Nat.iter_succ_r. reflexivity.
Qed.

Lemma pow_iter (this : Complex.t) (n : Z) :
  Complex.pow this n
  = Nat.iter (Z.to_nat n) (fun result => Complex.mul result this)
      (Complex.mk (Num 1) (Num 0)).
Proof.
  unfold Complex.pow. rewrite for_lt_iter, Nat.sub_0_r. reflexivity.
Qed.

Lemma pow_0 (this : Complex.t) : Complex.pow this 0 = Complex.mk (Num 1) (Num 0).
Proof. rewrite pow_iter. reflexivity. Qed.

Lemma pow_3 (this : Complex.t) :
  Complex.pow this 3
  = Complex.mul (Complex.mul (Complex.mul (Complex.mk (Num 1) (Num 0)) this) this)
      this.
Proof. rewrite pow_iter. reflexivity. Qed.

(** The cube of a finite complex number. *)
Lemma pow_3_Num (a b : R) :
  Complex.pow (Complex.mk (Num a) (Num b)) 3
  = Complex.mk (Num (a * a * a - 3 * a * b * b)) (Num (3 * a * a * b - b * b * b)).
Proof.
  rewrite pow_3. unfold Complex.mul. cbn.
  f_equal; f_equal; ring.
Qed.

Lemma hypot_Num (a b : R) :
  Math.hypot (Num a) (Num b) = Num (sqrt (a * a + b * b)).
Proof. reflexivity. Qed.

Lemma sqrt_Num (x : R) : 0 <= x -> Math.sqrt (Num x) = Num (sqrt x).
Proof.
  intros Hx. unfold Math.sqrt. destruct (Rlt_dec x 0); [lra | reflexivity].
Qed.

(** [Complex.sqrt] on a finite complex number, in polar form. *)
Lemma sqrt_polar (a b : R) :
  Complex.sqrt (Complex.mk (Num a) (Num b))
  = Complex.mk
      (Num (sqrt (sqrt (a * a + b * b)) * cos (Math.Ratan2 b a / 2)))
      (Num (sqrt (sqrt (a * a + b * b)) * sin (Math.Ratan2 b a / 2))).
Proof.
  unfold Complex.sqrt. cbn [Complex.re Complex.im].
  rewrite hypot_Num, sqrt_Num by apply sqrt_pos.
  unfold Math.atan2, lift2. rewrite Ndiv_Num by lra. reflexivity.
Qed.

Lemma cos_minus_PI (x : R) : cos (x - PI) = - cos x.
Proof.
  replace (x - PI) with (x + PI - 2 * PI) by ring.
  rewrite cos_minus_2PI. apply neg_cos.
Qed.

Lemma sin_minus_PI (x : R) : sin (x - PI) = - sin x.
Proof.
  replace (x - PI) with (x + PI - 2 * PI) by ring.
  rewrite sin_minus_2PI. apply neg_sin.
Qed.

(** The modulus of [a + ib] for [a <> 0], through the slope [b / a]. *)
Lemma hypot_slope (a b : R) :
  a <> 0 ->
  sqrt (a * a + b * b) = Rabs a * sqrt (1 + (b / a)²).
Proof.
  intros Ha.
  assert (Hs : 0 <= sqrt (1 + (b / a)²)) by apply sqrt_pos.
  assert (Hsq : a * a + b * b
                = (Rabs a * sqrt (1 + (b / a)²)) * (Rabs a * sqrt (1 + (b / a)²))).
  { transitivity ((Rabs a * Rabs a)
                  * (sqrt (1 + (b / a)²) * sqrt (1 + (b / a)²))); [|ring].
    rewrite sqrt_sqrt by (pose proof (Rle_0_sqr (b / a)); lra).
    replace (Rabs a * Rabs a) with (a * a)
      by (unfold Rabs; destruct (Rcase_abs a); ring).
    unfold Rsqr. field. exact Ha. }
  rewrite Hsq. apply sqrt_square.
  apply Rmult_le_pos; [apply Rabs_pos | exact Hs].
Qed.

Lemma sqrt_slope_pos (t : R) : 0 < sqrt (1 + t²).
Proof.
  apply sqrt_lt_R0. pose proof (Rle_0_sqr t). lra.
Qed.

(** [Math.atan2(b, a)] is the argument of [a + ib]. *)
Lemma Ratan2_polar (a b : R) :
  sqrt (a * a + b * b) * cos (Math.Ratan2 b a) = a /\
  sqrt (a * a + b * b) * sin (Math.Ratan2 b a) = b.
Proof.
  unfold Math.Ratan2.
  destruct (Rlt_dec 0 a) as [Hpos|Hnpos].
  - rewrite hypot_slope by lra. rewrite cos_atan, sin_atan.
    pose proof (sqrt_slope_pos (b / a)) as Hs.
    rewrite Rabs_right by lra. split; field; lra.
  - destruct (Rlt_dec a 0) as [Hneg|Hnneg].
    + rewrite hypot_slope by lra.
      pose proof (sqrt_slope_pos (b / a)) as Hs.
      rewrite Rabs_left by lra.
      destruct (Rle_dec 0 b) as [Hb|Hb].
      * rewrite neg_cos, neg_sin, cos_atan, sin_atan. split; field; lra.
      * rewrite cos_minus_PI, sin_minus_PI, cos_atan, sin_atan.
        split; field; lra.
    + assert (a = 0) by lra. subst a.
      replace (0 * 0 + b * b) with (b * b) by ring.
      destruct (Rlt_dec 0 b) as [Hb|Hb].
      * rewrite sqrt_square by lra. rewrite cos_PI2, sin_PI2. split; ring.
      * destruct (Rlt_dec b 0) as [Hb'|Hb'].
        -- replace (b * b) with ((- b) * (- b)) by ring.
           rewrite sqrt_square by lra.
           rewrite cos_neg, sin_neg, cos_PI2, sin_PI2. split; ring.
        -- assert (b = 0) by lra. subst b.
           rewrite Rmult_0_l, sqrt_0. split; ring.
Qed.

(** The angle lies in (-PI, PI]. *)
Lemma Ratan2_bound (a b : R) : - PI < Math.Ratan2 b a <= PI.
Proof.
  unfold Math.Ratan2. pose proof PI_RGT_0 as Hpi.
  pose proof (atan_bound (b / a)) as [Hlo Hhi].
  destruct (Rlt_dec 0 a) as [Hpos|Hnpos]; [lra|].
  destruct (Rlt_dec a 0) as [Hneg|Hnneg].
  - destruct (Rle_dec 0 b) as [Hb|Hb].
    + assert (Ht : b / a <= 0).
      { replace (b / a) with (- (b * / (- a))) by (field; lra).
        assert (0 <= b * / (- a))
          by (apply Rmult_le_pos; [lra | left; apply Rinv_0_lt_compat; lra]).
        lra. }
      assert (atan (b / a) <= 0).
      { rewrite <- atan_0. destruct Ht as [Ht|Ht].
        - left. apply atan_increasing. exact Ht.
        - rewrite Ht. right. reflexivity. }
      lra.
    + assert (Ht : 0 < b / a).
      { replace (b / a) with ((- b) * / (- a)) by (field; lra).
        apply Rmult_lt_0_compat; [lra|]. apply Rinv_0_lt_compat. lra. }
      assert (0 < atan (b / a)).
      { rewrite <- atan_0. apply atan_increasing. exact Ht. }
      lra.
  - destruct (Rlt_dec 0 b); [lra|]. destruct (Rlt_dec b 0); lra.
Qed.

(** C4.  For every complex value [z = a + ib] (a pair of reals),
    [Complex.sqrt z] is a finite complex number with non-negative real
    part (the principal branch), and multiplying it by itself gives [z]
    back.  Over the reals both hold exactly, hence within any tolerance. *)
Theorem sqrt_principal_branch (a b : R) :
  let z := Complex.mk (Num a) (Num b) in
  exists u v : R,
    Complex.sqrt z = Complex.mk (Num u) (Num v) /\
    0 <= u /\
    Complex.mul (Complex.sqrt z) (Complex.sqrt z) = z.
Proof.
  intros z. subst z. rewrite sqrt_polar.
  set (r := sqrt (a * a + b * b)).
  set (h := Math.Ratan2 b a / 2).
  exists (sqrt r * cos h), (sqrt r * sin h).
  assert (Hr : 0 <= r) by apply sqrt_pos.
  pose proof (Ratan2_bound a b) as [Hlo Hhi].
  pose proof (Ratan2_polar a b) as [Hcos Hsin].
  fold r in Hcos, Hsin.
  replace (Math.Ratan2 b a) with (2 * h) in Hcos, Hsin by (unfold h; field).
  rewrite cos_2a in Hcos. rewrite sin_2a in Hsin.
  split; [reflexivity|]. split.
  - apply Rmult_le_pos; [apply sqrt_pos|].
    apply cos_ge_0; unfold h; lra.
  - unfold Complex.mul. cbn.
    pose proof (sqrt_sqrt r Hr) as Hss.
    f_equal; f_equal.
    + transitivity (sqrt r * sqrt r * (cos h * cos h - sin h * sin h)); [ring|].
      rewrite Hss. exact Hcos.
    + transitivity (sqrt r * sqrt r * (2 * sin h * cos h)); [ring|].
      rewrite Hss. exact Hsin.
Qed.

(* ===================================================================== *)
(** * The polynomial surface *)
(* ===================================================================== *)

(** The point of the code 90 with imaginary part 0:
    [z = 90], [z^3 - 1 = 728999], [w = sqrt 728999]. *)
Lemma poly_point_90 :
  poly_point_of 90 0
  = Point3.mk (Num (90 * 0.05)) (Num (0 * 0.05)) (Num (sqrt 728999 * 0.05)).
Proof.
  unfold poly_point_of, of_Z. rewrite pow_3_Num.
  unfold Complex.sub. cbn [Complex.re Complex.im Nsub lift2].
  replace (90 * 90 * 90 - 3 * 90 * 0 * 0 - 1) with 728999 by lra.
  replace (3 * 90 * 90 * 0 - 0 * 0 * 0 - 0) with 0 by lra.
  rewrite sqrt_polar. cbn [Complex.re Complex.im Nmul lift2].
  replace (728999 * 728999 + 0 * 0) with (728999 * 728999) by lra.
  rewrite sqrt_square by lra.
  assert (Hang : Math.Ratan2 0 728999 = 0).
  { unfold Math.Ratan2. destruct (Rlt_dec 0 728999); [|lra].
    unfold Rdiv. rewrite Rmult_0_l. apply atan_0. }
  rewrite Hang. replace (0 / 2) with 0 by lra.
  rewrite cos_0, Rmult_1_r. reflexivity.
Qed.

(** The point of a character whose remainder is the integer [r]. *)
Lemma poly_point64_rem (c key modVal r : Z) :
  rem64 c key modVal = of_Z r -> poly_point64 c key modVal = poly_point_of c r.
Proof.
  intros E. unfold poly_point64, poly_point_of. rewrite E. reflexivity.
Qed.

Lemma poly_point_of_y (c r : Z) :
  exists x z : number,
    poly_point_of c r = Point3.mk x (Num (IZR r * 0.05)) z.
Proof.
  unfold poly_point_of. do 2 eexists. reflexivity.
Qed.

(** C2.  The source departs from z = c + i ((c*key) mod modVal), the
    formula of its own comment, in two ways.  [%] takes the sign of the
    dividend: for the text A (code 65) with key = -1 and modVal = 7 the
    imaginary part is -65 % 7 = -2 and y = -0.1, where the residue is 5
    and y = 0.25.  And the product is a double: with key = 2^53 - 1 and
    modVal = 2 the source finds the remainder 0 of the rounded product
    and y = 0, where the residue of 65 * (2^53 - 1) is 1 and y = 0.05.
    For the text Z with key 1 and modulus 2 the source agrees with the
    example: the z-component is [sqrt(728999)*0.05] within 1e-9. *)
Theorem encryptToPolynomial64_departs :
  (exists x z : number,
     encryptToPolynomial64 (lit "A") (-1) 7 = [Point3.mk x (Num (-2 * 0.05)) z]) /\
  Point3.y (spec_poly_point 65 (-1) 7) = Num (5 * 0.05) /\
  (exists x z : number,
     encryptToPolynomial64 (lit "A") 9007199254740991 2
     = [Point3.mk x (Num (0 * 0.05)) z]) /\
  Point3.y (spec_poly_point 65 9007199254740991 2) = Num (1 * 0.05) /\
  (exists x y : number, exists z : R,
     encryptToPolynomial64 (lit "Z") 1 2 = [Point3.mk x y (Num z)] /\
     Rabs (z - sqrt 728999 * 0.05) <= 1e-9).
Proof.
  split; [|split; [reflexivity | split; [|split; [reflexivity|]]]].
  - rewrite encryptToPolynomial64_map.
    change (map (fun c => poly_point64 (code_of c) (-1) 7) (lit "A"))
      with [poly_point64 65 (-1) 7].
    rewrite (@poly_point64_rem 65 (-1) 7 (-2))
      by (rewrite rem64_exact by lia; reflexivity).
    destruct (poly_point_of_y 65 (-2)) as (x & z & ->). eauto.
  - rewrite encryptToPolynomial64_map.
    change (map (fun c => poly_point64 (code_of c) 9007199254740991 2) (lit "A"))
      with [poly_point64 65 9007199254740991 2].
    rewrite (@poly_point64_rem 65 9007199254740991 2 0).
    + destruct (poly_point_of_y 65 0) as (x & z & ->). eauto.
    + rewrite rem64_finite by (try lia; vm_compute; reflexivity).
      f_equal.
  - exists (Num (90 * 0.05)), (Num (0 * 0.05)), (sqrt 728999 * 0.05).
    split; [|rewrite Rminus_diag, Rabs_R0; lra].
    rewrite encryptToPolynomial64_map.
    change (map (fun c => poly_point64 (code_of c) 1 2) (lit "Z"))
      with [poly_point64 90 1 2].
    rewrite (@poly_point64_rem 90 1 2 0)
      by (rewrite rem64_exact by lia; reflexivity).
    rewrite poly_point_90. reflexivity.
Qed.

(* ===================================================================== *)
(** * A zero modulus *)
(* ===================================================================== *)

Lemma torus_point_mod1_zero (code key1 key2 mod2 : number) :
  let p := torus_point code key1 (Num 0) key2 mod2 in
  Point3.x p = NaN /\ Point3.y p = NaN.
Proof.
  unfold torus_point. cbn [Point3.x Point3.y].
  rewrite Nrem_zero. cbn. split; apply Nmul_NaN_r.
Qed.

Lemma torus_point_mod2_zero (code key1 mod1 key2 : number) :
  all_NaN (torus_point code key1 mod1 key2 (Num 0)).
Proof.
  unfold all_NaN, torus_point. cbn [Point3.x Point3.y Point3.z].
  rewrite Nrem_zero. cbn. repeat split; reflexivity.
Qed.

Lemma poly_point_mod_zero (c key : number) :
  let p := poly_point c key (Num 0) in
  Point3.x p = (c * Num 0.05)%js /\ Point3.y p = NaN /\ Point3.z p = NaN.
Proof.
  unfold poly_point. cbn [Point3.x Point3.y Point3.z Complex.re Complex.im].
  rewrite Nrem_zero, pow_3.
  split; [reflexivity|]. split; [reflexivity|].
  destruct c as [x|]; reflexivity.
Qed.

(** The x-coordinate of a polynomial point never involves the modulus. *)
Lemma poly_point_x (c key modVal : number) :
  Point3.x (poly_point c key modVal) = (c * Num 0.05)%js.
Proof. reflexivity. Qed.

(** For the text A with key 1 and modulus 0, the polynomial point has the
    x-coordinate 65 * 0.05 = 3.25: not every coordinate is [NaN]. *)
Lemma encryptToPolynomial_zero_modulus_x :
  encryptToPolynomial (lit "A") (of_Z 1) (of_Z 0)
  = [Point3.mk (Num (65 * 0.05)) NaN NaN] /\
  ~ zero_modulus_claim.
Proof.
  assert (H : encryptToPolynomial (lit "A") (of_Z 1) (of_Z 0)
              = [Point3.mk (Num (65 * 0.05)) NaN NaN]).
  { rewrite encryptToPolynomial_map.
    change (map (fun c => poly_point (of_Z (code_of c)) (of_Z 1) (of_Z 0)) (lit "A"))
      with [poly_point (of_Z 65) (of_Z 1) (Num 0)].
    destruct (poly_point_mod_zero (of_Z 65) (of_Z 1)) as (Hx & Hy & Hz).
    destruct (poly_point (of_Z 65) (of_Z 1) (Num 0)) as [px py pz].
    cbn in Hx, Hy, Hz. subst px py pz. reflexivity. }
  split; [exact H|].
  intros Hclaim.
  destruct (Hclaim (lit "A") (of_Z 1) (of_Z 1) (of_Z 1) (of_Z 1) (of_Z 1) (of_Z 0))
    as (_ & _ & _ & Hp).
  specialize (Hp eq_refl). rewrite H in Hp.
  apply Forall_inv in Hp. destruct Hp as [Hx _]. discriminate Hx.
Qed.

(** C10, as amended.  For every text and all numeric parameters, a zero
    modulus included, both transforms return (the embedding is a total
    function: nothing in the source can throw on a string and numbers) a
    sequence of the length of the text.  With a zero modulus the coordinates
    computed from it are [NaN]: for [encryptToTorus], x and y when
    [mod1 = 0] and x, y and z when [mod2 = 0]; for [encryptToPolynomial],
    y and z when [modVal = 0], while x is [c * 0.05] whatever the modulus. *)
Theorem encrypt_total_zero_modulus
  (text : jsstring) (key1 mod1 key2 mod2 key modVal : number) :
  List.length (encryptToTorus text key1 mod1 key2 mod2) = List.length text /\
  List.length (encryptToPolynomial text key modVal) = List.length text /\
  (mod1 = Num 0 ->
   Forall (fun p => Point3.x p = NaN /\ Point3.y p = NaN)
     (encryptToTorus text key1 mod1 key2 mod2)) /\
  (mod2 = Num 0 ->
   Forall all_NaN (encryptToTorus text key1 mod1 key2 mod2)) /\
  (modVal = Num 0 ->
   Forall (fun p => Point3.y p = NaN /\ Point3.z p = NaN)
     (encryptToPolynomial text key modVal)) /\
  map Point3.x (encryptToPolynomial text key modVal)
  = map (fun c => (of_Z (code_of c) * Num 0.05)%js) text.
Proof.
  rewrite encryptToTorus_map, encryptToPolynomial_map.
  split; [apply length_map|]. split; [apply length_map|].
  split; [|split; [|split]].
  - intros ->. apply Forall_map, Forall_forall. intros c _.
    apply torus_point_mod1_zero.
  - intros ->. apply Forall_map, Forall_forall. intros c _.
    apply torus_point_mod2_zero.
  - intros ->. apply Forall_map, Forall_forall. intros c _.
    destruct (poly_point_mod_zero (of_Z (code_of c)) key) as (_ & Hy & Hz).
    split; assumption.
  - rewrite map_map. apply map_ext. intros c. apply poly_point_x.
Qed.

Lemma encrypt_total_zero_modulus_witness :
  List.length (encryptToTorus (lit "AB") (of_Z 3) (Num 0) (of_Z 2) (Num 0)) = 2%nat /\
  List.length (encryptToPolynomial (lit "AB") (of_Z 1) (Num 0)) = 2%nat /\
  Forall all_NaN (encryptToTorus (lit "AB") (of_Z 3) (Num 0) (of_Z 2) (Num 0)) /\
  Forall (fun p => Point3.y p = NaN /\ Point3.z p = NaN)
    (encryptToPolynomial (lit "AB") (of_Z 1) (Num 0)).
Proof.
  destruct (@encrypt_total_zero_modulus (lit "AB")
              (of_Z 3) (Num 0) (of_Z 2) (Num 0) (of_Z 1) (Num 0))
    as (Hl1 & Hl2 & _ & Ht & Hp & _).
  split; [exact Hl1|]. split; [exact Hl2|].
  split; [apply Ht; reflexivity | apply Hp; reflexivity].
Defined.

(* ===================================================================== *)
(** * [class Complex]: no operation mutates an existing object *)
(* ===================================================================== *)

Lemma for_lt_invariant {S : Type} (P : S -> Prop) (n : nat)
      (body : nat -> S -> S) :
  (forall j s, P s -> P (body j s)) ->
  forall i s, P s -> P (for_lt n body i s).
Proof.
  intros Hbody i. remember (n - i)%nat as k eqn:Hk.
  revert i Hk. induction k as [|k IH]; intros i Hk s Hs.
  - rewrite for_lt_done by lia. exact Hs.
  - rewrite for_lt_step by lia. apply IH; [lia|]. apply Hbody. exact Hs.
Qed.

(** Two loops over the same range whose bodies preserve a relation end in
    related states. *)
Lemma for_lt_related {S T : Type} (Q : S -> T -> Prop) (n : nat)
      (f : nat -> S -> S) (g : nat -> T -> T) :
  (forall j s t, Q s t -> Q (f j s) (g j t)) ->
  forall i s t, Q s t -> Q (for_lt n f i s) (for_lt n g i t).
Proof.
  intros Hstep i. remember (n - i)%nat as k eqn:Hk.
  revert i Hk. induction k as [|k IH]; intros i Hk s t Hst.
  - rewrite !for_lt_done by lia. exact Hst.
  - rewrite (@for_lt_step _ n f i s), (@for_lt_step _ n g i t) by lia.
    apply IH; [lia|]. apply Hstep. exact Hst.
Qed.

Module ComplexObjFacts.
Import ComplexObj.

Lemma update_last (h : store) (o : object) (f : object -> object) :
  update (h ++ [o]) (List.length h) f = h ++ [f o].
Proof.
  induction h as [|o' h IH]; simpl; [reflexivity|].
  rewrite IH. reflexivity.
Qed.

(** [new Complex(a, b)] appends one object holding [a] and [b]. *)
Lemma new_appends (a b : number) (h : store) :
  new (Some a) (Some b) h
  = (List.length h, h ++ [Obj (Some a) (Some b)]).
Proof.
  unfold new, constructor, alloc, set_re, set_im, bind, ret.
  rewrite update_last. cbn [f_im]. rewrite update_last. reflexivity.
Qed.

Lemma appended_returns_new (h h1 : store) (o : object) :
  (List.length h <= List.length h1)%nat ->
  (forall l, (l < List.length h)%nat -> nth_error h1 l = nth_error h l) ->
  returns_new h (List.length h1, h1 ++ [o]).
Proof.
  intros Hlen Hold. unfold returns_new. split.
  - rewrite length_app. simpl. lia.
  - intros l Hl. rewrite nth_error_app1 by lia. apply Hold. exact Hl.
Qed.

Lemma new_returns_new (a b : number) (h : store) :
  returns_new h (new (Some a) (Some b) h).
Proof.
  rewrite new_appends. apply appended_returns_new; [lia | reflexivity].
Qed.

Lemma add_appends (this other : ref) (h : store) :
  add this other h
  = (List.length h,
     h ++ [Obj (Some (fst (get_re this h) + fst (get_re other h))%js)
               (Some (fst (get_im this h) + fst (get_im other h))%js)]).
Proof. unfold add, bind, get_re, get_im. cbn. apply new_appends. Qed.

Lemma sub_appends (this other : ref) (h : store) :
  sub this other h
  = (List.length h,
     h ++ [Obj (Some (fst (get_re this h) - fst (get_re other h))%js)
               (Some (fst (get_im this h) - fst (get_im other h))%js)]).
Proof. unfold sub, bind, get_re, get_im. cbn. apply new_appends. Qed.

Lemma mul_appends (this other : ref) (h : store) :
  mul this other h
  = (List.length h,
     h ++ [Obj (Some (fst (get_re this h) * fst (get_re other h)
                      - fst (get_im this h) * fst (get_im other h))%js)
               (Some (fst (get_re this h) * fst (get_im other h)
                      + fst (get_im this h) * fst (get_re other h))%js)]).
Proof. unfold mul, bind, get_re, get_im. cbn. apply new_appends. Qed.

Lemma sqrt_appends (this : ref) (h : store) :
  sqrt this h
  = (List.length h,
     let z := Complex.sqrt (read h this) in
     h ++ [Obj (Some (Complex.re z)) (Some (Complex.im z))]).
Proof. unfold sqrt, bind, get_re, get_im. cbn. apply new_appends. Qed.

(** One more [mul] keeps the objects of [h] as they were. *)
Lemma mul_step_returns_new (h : store) (this : ref) (st : ref * store) :
  returns_new h st ->
  returns_new h (let (result, h') := st in mul result this h').
Proof.
  destruct st as [result h1]. intros [Hr Hold].
  rewrite mul_appends. apply appended_returns_new; [lia | exact Hold].
Qed.

Lemma pow_returns_new (h : store) (this : ref) (n : Z) :
  returns_new h (pow this n h).
Proof.
  unfold pow. apply for_lt_invariant.
  - intros _ st. apply mul_step_returns_new.
  - apply new_returns_new.
Qed.

(** Reading the result of a method gives the value-level operation on
    the values of the receiver and of the argument. *)
Lemma read_last (h : store) (a b : number) :
  read (h ++ [Obj (Some a) (Some b)]) (List.length h) = Complex.mk a b.
Proof.
  unfold read, get_re, get_im. cbn [fst].
  rewrite nth_error_app2 by lia. rewrite Nat.sub_diag. reflexivity.
Qed.

Lemma read_old (h ext : store) (l : ref) :
  (l < List.length h)%nat -> read (h ++ ext) l = read h l.
Proof.
  intros Hl. unfold read, get_re, get_im. cbn [fst].
  rewrite nth_error_app1 by exact Hl. reflexivity.
Qed.

Lemma add_value (this other : ref) (h : store) :
  let (r, h') := add this other h in
  read h' r = Complex.add (read h this) (read h other).
Proof. rewrite add_appends. apply read_last. Qed.

Lemma sub_value (this other : ref) (h : store) :
  let (r, h') := sub this other h in
  read h' r = Complex.sub (read h this) (read h other).
Proof. rewrite sub_appends. apply read_last. Qed.

Lemma mul_value (this other : ref) (h : store) :
  let (r, h') := mul this other h in
  read h' r = Complex.mul (read h this) (read h other).
Proof. rewrite mul_appends. apply read_last. Qed.

Lemma read_unchanged (h h1 : store) (l : ref) :
  nth_error h1 l = nth_error h l -> read h1 l = read h l.
Proof. intros E. unfold read, get_re, get_im. cbn [fst]. rewrite E. reflexivity. Qed.

(** [pow] on an allocated receiver computes the value-level power. *)
Lemma pow_value (this : ref) (n : Z) (h : store) :
  (this < List.length h)%nat ->
  let (r, h') := pow this n h in
  read h' r = Complex.pow (read h this) n.
Proof.
  intros Hthis. unfold pow, Complex.pow.
  set (Q := fun (st : ref * store) (v : Complex.t) =>
              returns_new h st /\ read (snd st) (fst st) = v).
  assert (HQ : Q (for_lt (Z.to_nat n)
                    (fun _ (st : ref * store) =>
                       let (result, h') := st in mul result this h')
                    0 (new (Some (Num 1)) (Some (Num 0)) h))
                 (for_lt (Z.to_nat n)
                    (fun _ result => Complex.mul result (read h this))
                    0 (Complex.mk (Num 1) (Num 0)))).
  { apply for_lt_related.
    - intros _ [r h1] v [Hnew Hv]. split.
      + apply (@mul_step_returns_new h this (r, h1) Hnew).
      + destruct Hnew as [Hr Hold]. cbn [fst snd] in Hv.
        rewrite mul_appends. cbn [fst snd]. rewrite read_last.
        rewrite <- Hv, <- (@read_unchanged h h1 this (Hold this Hthis)).
        reflexivity.
    - split; [apply new_returns_new|].
      rewrite new_appends. apply read_last. }
  destruct HQ as [_ HQ].
  destruct (for_lt (Z.to_nat n) _ 0 (new (Some (Num 1)) (Some (Num 0)) h))
    as [r h']. exact HQ.
Qed.

Lemma sqrt_value (this : ref) (h : store) :
  let (r, h') := sqrt this h in
  read h' r = Complex.sqrt (read h this).
Proof.
  rewrite sqrt_appends. cbv zeta. rewrite read_last.
  destruct (Complex.sqrt (read h this)). reflexivity.
Qed.

End ComplexObjFacts.

(** C9.  Each of [add], [sub], [mul], [pow] and [sqrt], run in any store
    [h] on any receiver and argument, returns a reference to an object
    that [h] did not hold, and leaves every object of [h] (the receiver and
    the argument among them) with the fields it had. *)
Theorem complex_operations_do_not_mutate
  (h : ComplexObj.store) (this other : ComplexObj.ref) (n : Z) :
  ComplexObj.returns_new h (ComplexObj.add this other h) /\
  ComplexObj.returns_new h (ComplexObj.sub this other h) /\
  ComplexObj.returns_new h (ComplexObj.mul this other h) /\
  ComplexObj.returns_new h (ComplexObj.pow this n h) /\
  ComplexObj.returns_new h (ComplexObj.sqrt this h).
Proof.
  rewrite ComplexObjFacts.add_appends, ComplexObjFacts.sub_appends,
    ComplexObjFacts.mul_appends, ComplexObjFacts.sqrt_appends.
  split; [| split; [| split; [| split]]];
    try (apply ComplexObjFacts.appended_returns_new; [lia | reflexivity]).
  apply ComplexObjFacts.pow_returns_new.
Qed.

(* ===================================================================== *)
(** * The orbit rotation under mouse events *)
(* ===================================================================== *)

Lemma limit_bounds : 0.9 < limit <= 1.9.
Proof.
  unfold limit. pose proof PI2_1. pose proof PI_4. lra.
Qed.

Lemma limit_js : (Math.PI / Num 2 - Num 0.1)%js = Num limit.
Proof.
  unfold Math.PI. rewrite Ndiv_Num by lra. reflexivity.
Qed.

Lemma clamp_bounds (v : R) : - limit <= clamp v <= limit.
Proof.
  unfold clamp. pose proof limit_bounds as [Hl _]. split.
  - apply Rmax_l.
  - apply Rmax_lub; [lra | apply Rmin_l].
Qed.

Lemma clamp_high (v : R) : limit <= v -> clamp v = limit.
Proof.
  intros Hv. unfold clamp. pose proof limit_bounds as [Hl _].
  rewrite Rmin_left by exact Hv. apply Rmax_right. lra.
Qed.

Lemma clamp_low (v : R) : v <= - limit -> clamp v = - limit.
Proof.
  intros Hv. unfold clamp. pose proof limit_bounds as [Hl _].
  rewrite Rmin_right by lra. apply Rmax_left. exact Hv.
Qed.

(** A move while dragging, on finite values. *)
Lemma mousemove_dragging (e : MouseEvent) (g : Globals) (rx ry lx ly : R) :
  dragging g = true ->
  rotX g = Num rx -> rotY g = Num ry ->
  lastMouse g = {| mouse_x := Num lx; mouse_y := Num ly |} ->
  mousemove e g
  = set_view g (Num (clamp (rx + (clientY e - ly) * 0.005)))
      (Num (ry + (clientX e - lx) * 0.005)) true
      {| mouse_x := Num (clientX e); mouse_y := Num (clientY e) |}.
Proof.
  intros Hd Hx Hy Hm. unfold mousemove.
  rewrite Hd, Hx, Hy, Hm, limit_js. reflexivity.
Qed.

Lemma initial_ok : view_ok initial.
Proof.
  pose proof limit_bounds as [Hl _]. unfold view_ok, initial. cbn.
  split; [exists 0.4; split; [reflexivity | lra]|].
  split; [exists 0.8; reflexivity | exists 0, 0; reflexivity].
Qed.

Lemma dispatch_ok (g : Globals) (ev : pointer_event) :
  view_ok g -> view_ok (dispatch g ev).
Proof.
  intros Hok.
  destruct Hok as ((rx & Hx & Hb) & (ry & Hy) & (lx & ly & Hm)).
  destruct ev as [e|e| |]; cbn [dispatch].
  - unfold mousedown, view_ok. cbn.
    split; [exists rx; auto|]. split; [exists ry; auto|].
    exists (clientX e), (clientY e). reflexivity.
  - destruct (dragging g) eqn:Hd.
    + rewrite (mousemove_dragging e g Hd Hx Hy Hm). unfold view_ok. cbn.
      split; [eexists; split; [reflexivity | apply clamp_bounds]|].
      split; [eexists; reflexivity|].
      exists (clientX e), (clientY e). reflexivity.
    + unfold mousemove. rewrite Hd. cbn.
      unfold view_ok. split; [exists rx; auto|]. split; [exists ry; auto|].
      exists lx, ly. exact Hm.
  - unfold mouseup_or_leave, view_ok. cbn.
    split; [exists rx; auto|]. split; [exists ry; auto|]. exists lx, ly. exact Hm.
  - unfold mouseup_or_leave, view_ok. cbn.
    split; [exists rx; auto|]. split; [exists ry; auto|]. exists lx, ly. exact Hm.
Qed.

Lemma run_events_ok (evs : list pointer_event) (g : Globals) :
  view_ok g -> view_ok (run_events g evs).
Proof.
  revert g. induction evs as [|ev evs IH]; intros g Hok; [exact Hok|].
  cbn. apply IH. apply dispatch_ok. exact Hok.
Qed.

(** A move that would carry the tilt to or past a bound pins it there. *)
Lemma mousemove_pins (e : MouseEvent) (g : Globals) (rx ly : R) :
  view_ok g -> dragging g = true ->
  rotX g = Num rx -> mouse_y (lastMouse g) = Num ly ->
  (limit <= rx + (clientY e - ly) * 0.005 -> rotX (mousemove e g) = Num limit) /\
  (rx + (clientY e - ly) * 0.005 <= - limit -> rotX (mousemove e g) = Num (- limit)).
Proof.
  intros (_ & (ry & Hy) & (lx & ly' & Hm)) Hd Hx Hly.
  rewrite Hm in Hly. cbn in Hly. injection Hly as ->.
  rewrite (mousemove_dragging e g Hd Hx Hy Hm). cbn.
  split; intros Hv; f_equal; [apply clamp_high | apply clamp_low]; exact Hv.
Qed.

Lemma drag_right_rotY (d : R) :
  rotY (run_events initial (drag_right d)) = Num (0.8 + (d - 0) * 0.005).
Proof.
  unfold drag_right, run_events. cbn [fold_left dispatch].
  rewrite (@mousemove_dragging _ _ 0.4 0.8 0 0); reflexivity.
Qed.

(** C7.  After every sequence of mouse events from the initial state,
    [rotX] is a finite number in [-(pi/2 - 0.1), pi/2 - 0.1]; a move while
    dragging that would carry it to or past the limit leaves it at exactly
    [pi/2 - 0.1] (or at the negative); and [rotY] has no bound: every real
    is exceeded after some sequence of events. *)
Theorem rotX_stays_clamped (evs : list pointer_event) :
  let g := run_events initial evs in
  (exists r, rotX g = Num r /\ - limit <= r <= limit) /\
  (forall (e : MouseEvent) (rx ly : R),
      dragging g = true -> rotX g = Num rx -> mouse_y (lastMouse g) = Num ly ->
      (limit <= rx + (clientY e - ly) * 0.005 ->
       rotX (dispatch g (MouseMove e)) = Num limit) /\
      (rx + (clientY e - ly) * 0.005 <= - limit ->
       rotX (dispatch g (MouseMove e)) = Num (- limit))) /\
  (forall B : R, exists evs' ry,
      rotY (run_events initial evs') = Num ry /\ B < ry).
Proof.
  intros g.
  assert (Hok : view_ok g) by (apply run_events_ok, initial_ok).
  split; [exact (proj1 Hok)|]. split.
  - intros e rx ly Hd Hx Hly. cbn [dispatch].
    apply mousemove_pins; assumption.
  - intros B. exists (drag_right ((B + 1) * 200)). eexists.
    split; [apply drag_right_rotY | lra].
Qed.

(** The tilt after pressing at the origin and moving 1000 pixels down. *)
Lemma drag_down_rotX :
  rotX (run_events initial
          [MouseDown {| clientX := 0; clientY := 0 |};
           MouseMove {| clientX := 0; clientY := 1000 |}]) = Num limit.
Proof.
  unfold run_events. cbn [fold_left dispatch].
  rewrite (@mousemove_dragging _ _ 0.4 0.8 0 0); try reflexivity.
  cbn. f_equal. apply clamp_high. pose proof limit_bounds. lra.
Qed.

Lemma rotX_stays_clamped_witness :
  let g := run_events initial
             [MouseDown {| clientX := 0; clientY := 0 |};
              MouseMove {| clientX := 0; clientY := 1000 |}] in
  (exists r, rotX g = Num r /\ - limit <= r <= limit) /\
  rotX (dispatch g (MouseMove {| clientX := 0; clientY := 3000 |})) = Num limit.
Proof.
  intros g.
  destruct (rotX_stays_clamped
              [MouseDown {| clientX := 0; clientY := 0 |};
               MouseMove {| clientX := 0; clientY := 1000 |}])
    as (Hb & Hpin & _).
  split; [exact Hb|].
  apply (Hpin {| clientX := 0; clientY := 3000 |} limit 1000).
  - reflexivity.
  - exact drag_down_rotX.
  - reflexivity.
  - cbn. lra.
Defined.

(* ===================================================================== *)
(** * [updateVisualisation] *)
(* ===================================================================== *)

(** On the sample page the call returns [undefined]; the summary goes to
    the status element as a line of text. *)
Lemma updateVisualisation_returns_undefined :
  fst (fst (updateVisualisation DecimalHost.parseInt sample_page initial))
  = Vundefined /\
  status_textContent
    (snd (updateVisualisation DecimalHost.parseInt sample_page initial))
  = "Encoded 2 characters on torus and polynomial surface."%string /\
  ~ recompute_returns_summary.
Proof.
  split; [reflexivity|]. split; [reflexivity|].
  intros Hclaim.
  destruct (Hclaim DecimalHost.parseInt sample_page initial) as [s Hs].
  discriminate Hs.
Qed.

Section UpdateVisualisationFacts.

Variable parseInt : jsstring -> number -> number.

(** The recomputed sequences do not depend on the variables the program
    held before the call. *)
Lemma updateVisualisation_independent (doc : Document) (g g' : Globals) :
  torusData (snd (fst (updateVisualisation parseInt doc g)))
  = torusData (snd (fst (updateVisualisation parseInt doc g'))) /\
  polyData (snd (fst (updateVisualisation parseInt doc g)))
  = polyData (snd (fst (updateVisualisation parseInt doc g'))).
Proof. split; reflexivity. Qed.

End UpdateVisualisationFacts.

Lemma guarded_by_length {A : Type} (b : bool) (text : jsstring) (l : list A) :
  (text = [] -> l = []) ->
  (if b && (0 <? List.length text)%nat then l else []) = (if b then l else []).
Proof.
  intros Hempty. destruct b; [|reflexivity]. cbn.
  destruct text as [|c text]; [cbn; symmetry; apply Hempty; reflexivity|].
  reflexivity.
Qed.

(** C8, as amended.  [updateVisualisation] pulls the text, the six
    parameters (a field that does not parse, or parses to 0, takes its
    default) and the two visibility flags from the page; it stores the two
    flags, regenerates the point sequence of every surface that is shown and
    empties that of a hidden one, leaves the rotation state alone, and
    returns no value ([undefined]).  The summary is written to the status
    element: for a non-empty text, the character count and the names of the
    shown surfaces in one line of text; for the empty text, the prompt. *)
Theorem updateVisualisation_effect
  (parseInt : jsstring -> number -> number) (doc : Document) (g : Globals) :
  let text := inputText_value doc in
  let param value default := Nor (parseInt value (Num 10)) default in
  let out := updateVisualisation parseInt doc g in
  let g' := snd (fst out) in
  fst (fst out) = Vundefined /\
  showTorus g' = showTorus_checked doc /\
  showComplex g' = showComplex_checked doc /\
  torusData g' =
    (if showTorus_checked doc
     then encryptToTorus text
            (param (key1_value doc) (Num 1)) (param (mod1_value doc) (Num 2))
            (param (key2_value doc) (Num 1)) (param (mod2_value doc) (Num 2))
     else []) /\
  polyData g' =
    (if showComplex_checked doc
     then encryptToPolynomial text
            (param (key3_value doc) (Num 1)) (param (mod3_value doc) (Num 2))
     else []) /\
  (rotX g' = rotX g /\ rotY g' = rotY g /\
   dragging g' = dragging g /\ lastMouse g' = lastMouse g) /\
  snd out =
    set_status doc
      (match text with
       | [] => prompt_message
       | _ :: _ => encoded_message (List.length text) (active_surface_names doc)
       end).
Proof.
  intros text param out g'. subst out g'. unfold updateVisualisation.
  cbn [fst snd showTorus showComplex torusData polyData
       rotX rotY dragging lastMouse].
  fold text.
  split; [reflexivity|]. split; [reflexivity|]. split; [reflexivity|].
  split.
  { apply guarded_by_length. intros ->. apply encryptToTorus_nil. }
  split.
  { apply guarded_by_length. intros ->. apply encryptToPolynomial_nil. }
  split; [repeat split|].
  f_equal. unfold active_surface_names, push.
  destruct text as [|c text']; [reflexivity|].
  destruct (showTorus_checked doc), (showComplex_checked doc); reflexivity.
Qed.

(* ===================================================================== *)
(** * Further facts: complex arithmetic *)
(* ===================================================================== *)

Lemma mul_Num (a b c d : R) :
  Complex.mul (Complex.mk (Num a) (Num b)) (Complex.mk (Num c) (Num d))
  = Complex.mk (Num (a * c - b * d)) (Num (a * d + b * c)).
Proof. reflexivity. Qed.

Lemma pow_succ (this : Complex.t) (n : Z) :
  (0 <= n)%Z -> Complex.pow this (n + 1) = Complex.mul (Complex.pow this n) this.
Proof.
  intros Hn. rewrite !pow_iter.
  replace (Z.to_nat (n + 1)) with (S (Z.to_nat n)) by lia. reflexivity.
Qed.

Lemma pow_nonpos (this : Complex.t) (n : Z) :
  (n <= 0)%Z -> Complex.pow this n = Complex.mk (Num 1) (Num 0).
Proof.
  intros Hn. rewrite pow_iter.
  replace (Z.to_nat n) with 0%nat by lia. reflexivity.
Qed.

(** X1.  [pow(n)] returns [1 + 0i] for every exponent [n <= 0] (the loop is
    not entered), and for [n >= 0] one more unit of exponent is one more
    multiplication by the receiver, on the right. *)
Theorem pow_recurrence (this : Complex.t) (n : Z) :
  ((n <= 0)%Z -> Complex.pow this n = Complex.mk (Num 1) (Num 0)) /\
  ((0 <= n)%Z ->
   Complex.pow this (n + 1) = Complex.mul (Complex.pow this n) this).
Proof.
  split; [apply pow_nonpos | apply pow_succ].
Qed.

Lemma pow_recurrence_witness :
  Complex.pow (Complex.mk (Num 2) (Num 1)) (-3) = Complex.mk (Num 1) (Num 0) /\
  Complex.pow (Complex.mk (Num 2) (Num 1)) (2 + 1)
  = Complex.mul (Complex.pow (Complex.mk (Num 2) (Num 1)) 2)
      (Complex.mk (Num 2) (Num 1)).
Proof.
  split.
  - apply (proj1 (pow_recurrence (Complex.mk (Num 2) (Num 1)) (-3))). lia.
  - apply (proj2 (pow_recurrence (Complex.mk (Num 2) (Num 1)) 2)). lia.
Defined.

(** A power of a finite complex number is finite. *)
Lemma pow_finite (a b : R) (n : nat) :
  exists u v : R,
    Complex.pow (Complex.mk (Num a) (Num b)) (Z.of_nat n)
    = Complex.mk (Num u) (Num v).
Proof.
  induction n as [|n (u & v & IH)].
  - exists 1, 0. apply pow_nonpos. lia.
  - replace (Z.of_nat (S n)) with (Z.of_nat n + 1)%Z by lia.
    rewrite pow_succ by lia. rewrite IH, mul_Num. eauto.
Qed.

Lemma pow_add_nat (a b : R) (n m : nat) :
  Complex.pow (Complex.mk (Num a) (Num b)) (Z.of_nat n + Z.of_nat m)
  = Complex.mul (Complex.pow (Complex.mk (Num a) (Num b)) (Z.of_nat n))
                (Complex.pow (Complex.mk (Num a) (Num b)) (Z.of_nat m)).
Proof.
  induction m as [|m IH].
  - rewrite Z.add_0_r. destruct (pow_finite a b n) as (u & v & Hn).
    rewrite Hn. rewrite (pow_nonpos _ (n := Z.of_nat 0)) by lia.
    rewrite mul_Num. f_equal; f_equal; ring.
  - replace (Z.of_nat n + Z.of_nat (S m))%Z
      with ((Z.of_nat n + Z.of_nat m) + 1)%Z by lia.
    replace (Z.of_nat (S m)) with (Z.of_nat m + 1)%Z by lia.
    rewrite !pow_succ by lia. rewrite IH.
    destruct (pow_finite a b n) as (u & v & Hn).
    destruct (pow_finite a b m) as (u' & v' & Hm).
    rewrite Hn, Hm, !mul_Num. f_equal; f_equal; ring.
Qed.

(** The powers of a complex number with integer parts have integer parts,
    bounded by the powers of [|a| + |b|]. *)
Lemma pow_integer_parts (a b : Z) (n : nat) :
  exists u v : Z,
    Complex.pow (Complex.mk (of_Z a) (of_Z b)) (Z.of_nat n)
    = Complex.mk (of_Z u) (of_Z v) /\
    (Z.abs u + Z.abs v <= (Z.abs a + Z.abs b) ^ Z.of_nat n)%Z.
Proof.
  induction n as [|n (u & v & IH & Hb)].
  - exists 1%Z, 0%Z. split; [apply pow_nonpos; lia | simpl; lia].
  - exists (u * a - v * b)%Z, (u * b + v * a)%Z. split.
    + replace (Z.of_nat (S n)) with (Z.of_nat n + 1)%Z by lia.
      rewrite pow_succ by lia. rewrite IH. unfold of_Z. rewrite mul_Num.
      rewrite minus_IZR, plus_IZR, !mult_IZR. reflexivity.
    + replace (Z.of_nat (S n)) with (Z.succ (Z.of_nat n)) by lia.
      rewrite Z.pow_succ_r by lia.
      pose proof (Z.abs_triangle (u * a) (- (v * b))) as T1.
      pose proof (Z.abs_triangle (u * b) (v * a)) as T2.
      rewrite Z.abs_opp in T1. rewrite !Z.abs_mul in T1, T2.
      replace (u * a - v * b)%Z with (u * a + - (v * b))%Z by ring.
      pose proof (Z.abs_nonneg a). pose proof (Z.abs_nonneg b).
      apply Z.le_trans with ((Z.abs u + Z.abs v) * (Z.abs a + Z.abs b))%Z.
      * replace ((Z.abs u + Z.abs v) * (Z.abs a + Z.abs b))%Z
          with ((Z.abs u * Z.abs a + Z.abs v * Z.abs b)
                + (Z.abs u * Z.abs b + Z.abs v * Z.abs a))%Z by ring.
        apply Z.add_le_mono; assumption.
      * rewrite (Z.mul_comm (Z.abs a + Z.abs b)).
        apply Z.mul_le_mono_nonneg_r; [lia | exact Hb].
Qed.

(** X2.  On a complex number with integer parts [a] and [b], as long as
    [(|a| + |b|)^(n + m)] does not exceed 2^53, powers multiply as
    exponents add: [z.pow(n + m)] is [z.pow(n).mul(z.pow(m))] for
    [n, m >= 0].  The parts of every power up to the exponent [n + m] are
    integers of absolute value at most 2^53, so every product and sum met
    on the way is exact. *)
Theorem pow_add (a b n m : Z) :
  (0 <= n)%Z -> (0 <= m)%Z ->
  ((Z.abs a + Z.abs b) ^ (n + m) <= 2 ^ 53)%Z ->
  let z := Complex.mk (of_Z a) (of_Z b) in
  Complex.pow z (n + m) = Complex.mul (Complex.pow z n) (Complex.pow z m) /\
  forall k : Z, (0 <= k <= n + m)%Z ->
    exists u v : Z,
      Complex.pow z k = Complex.mk (of_Z u) (of_Z v) /\
      (Z.abs u + Z.abs v <= 2 ^ 53)%Z.
Proof.
  intros Hn Hm Hb z. subst z. split.
  - rewrite <- (Z2Nat.id n Hn), <- (Z2Nat.id m Hm). unfold of_Z.
    apply pow_add_nat.
  - intros k Hk.
    destruct (pow_integer_parts a b (Z.to_nat k)) as (u & v & Hp & Hu).
    rewrite Z2Nat.id in Hp, Hu by lia.
    exists u, v. split; [exact Hp|].
    apply Z.le_trans with ((Z.abs a + Z.abs b) ^ k)%Z; [exact Hu|].
    destruct (Z.eq_dec (Z.abs a + Z.abs b) 0) as [E|E].
    + rewrite E. destruct (Z.eq_dec k 0) as [->|Hk0]; [simpl; lia|].
      rewrite Z.pow_0_l by lia. lia.
    + apply Z.le_trans with ((Z.abs a + Z.abs b) ^ (n + m))%Z; [|exact Hb].
      apply Z.pow_le_mono_r; lia.
Qed.

Lemma pow_add_witness :
  let z := Complex.mk (of_Z 2) (of_Z (-1)) in
  Complex.pow z (2 + 1) = Complex.mul (Complex.pow z 2) (Complex.pow z 1) /\
  forall k : Z, (0 <= k <= 2 + 1)%Z ->
    exists u v : Z,
      Complex.pow z k = Complex.mk (of_Z u) (of_Z v) /\
      (Z.abs u + Z.abs v <= 2 ^ 53)%Z.
Proof.
  apply (@pow_add 2 (-1) 2 1); [lia | lia | vm_compute; discriminate].
Defined.

Lemma pow_1_mul (this : Complex.t) :
  Complex.pow this 1 = Complex.mul (Complex.mk (Num 1) (Num 0)) this.
Proof.
  change 1%Z with (0 + 1)%Z. rewrite pow_succ by lia. rewrite pow_0. reflexivity.
Qed.

(** X3.  [pow(1)] gives a finite receiver back unchanged; but a receiver
    with a [NaN] part comes back with [NaN] in both parts, because the
    product with [1 + 0i] mixes the two parts. *)
Theorem pow_one (a b : R) (c : number) :
  Complex.pow (Complex.mk (Num a) (Num b)) 1 = Complex.mk (Num a) (Num b) /\
  Complex.pow (Complex.mk NaN c) 1 = Complex.mk NaN NaN /\
  Complex.pow (Complex.mk c NaN) 1 = Complex.mk NaN NaN.
Proof.
  rewrite !pow_1_mul. split; [|split].
  - rewrite mul_Num. f_equal; f_equal; ring.
  - destruct c; reflexivity.
  - destruct c; reflexivity.
Qed.

(** X4.  On the non-negative real axis [Complex.sqrt] is the real square
    root: a real [x >= 0] gives [sqrt x + 0i]. *)
Theorem sqrt_real_axis (x : R) :
  0 <= x ->
  Complex.sqrt (Complex.mk (Num x) (Num 0)) = Complex.mk (Num (sqrt x)) (Num 0).
Proof.
  intros Hx. rewrite sqrt_polar.
  assert (Hang : Math.Ratan2 0 x = 0).
  { unfold Math.Ratan2. destruct (Rlt_dec 0 x).
    - unfold Rdiv. rewrite Rmult_0_l. apply atan_0.
    - destruct (Rlt_dec x 0); [lra|].
      destruct (Rlt_dec 0 0); [lra|]. destruct (Rlt_dec 0 0); [lra | reflexivity]. }
  rewrite Hang. replace (0 / 2) with 0 by lra. rewrite cos_0, sin_0.
  replace (x * x + 0 * 0) with (x * x) by ring.
  rewrite sqrt_square by exact Hx. f_equal; f_equal; ring.
Qed.

Lemma sqrt_real_axis_witness :
  Complex.sqrt (Complex.mk (Num 9) (Num 0)) = Complex.mk (Num (sqrt 9)) (Num 0).
Proof.
  apply (@sqrt_real_axis 9). lra.
Defined.

(** The root computed by [Complex.sqrt] on a finite number is finite and
    its real part is not negative. *)
Lemma sqrt_re_nonneg (a b : R) :
  exists u v : R,
    Complex.sqrt (Complex.mk (Num a) (Num b)) = Complex.mk (Num u) (Num v) /\
    0 <= u.
Proof.
  rewrite sqrt_polar. do 2 eexists. split; [reflexivity|].
  pose proof (Ratan2_bound a b) as [Hlo Hhi].
  apply Rmult_le_pos; [apply sqrt_pos|].
  apply cos_ge_0; lra.
Qed.

(* ===================================================================== *)
(** * Further facts: [Complex] objects *)
(* ===================================================================== *)

Lemma pow_store_length (this : ComplexObj.ref) (n : Z) (h : ComplexObj.store) :
  List.length (snd (ComplexObj.pow this n h))
  = (List.length h + 1 + Z.to_nat n)%nat.
Proof.
  unfold ComplexObj.pow. rewrite for_lt_iter, Nat.sub_0_r.
  induction (Z.to_nat n) as [|k IH].
  - cbn [Nat.iter nat_rect]. rewrite ComplexObjFacts.new_appends. cbn [snd].
    rewrite length_app. simpl. lia.
  - rewrite Nat.iter_succ.
    destruct (Nat.iter k _ _) as [r h1]. cbn [snd] in IH.
    rewrite ComplexObjFacts.mul_appends. cbn [snd].
    rewrite length_app. simpl. lia.
Qed.

(** X6.  Run on objects in a store, the methods compute the complex
    arithmetic of the values they are given, the receiver and the argument
    being possibly the same object: the object returned by [add], [sub],
    [mul] and [sqrt] holds the sum, difference, product and root of the
    values read before the call, and for an allocated receiver the object
    returned by [pow(n)] holds the [n]-th power, after one allocation for
    [1 + 0i] and one per multiplication. *)
Theorem methods_compute_values
  (h : ComplexObj.store) (this other : ComplexObj.ref) (n : Z) :
  (this < List.length h)%nat ->
  let value out := ComplexObj.read (snd out) (fst out) in
  let z := ComplexObj.read h this in
  let w := ComplexObj.read h other in
  value (ComplexObj.add this other h) = Complex.add z w /\
  value (ComplexObj.sub this other h) = Complex.sub z w /\
  value (ComplexObj.mul this other h) = Complex.mul z w /\
  value (ComplexObj.sqrt this h) = Complex.sqrt z /\
  value (ComplexObj.pow this n h) = Complex.pow z n /\
  List.length (snd (ComplexObj.pow this n h))
  = (List.length h + 1 + Z.to_nat n)%nat.
Proof.
  intros Hthis value z w. subst value z w. cbv beta.
  pose proof (ComplexObjFacts.add_value this other h) as Ha.
  pose proof (ComplexObjFacts.sub_value this other h) as Hs.
  pose proof (ComplexObjFacts.mul_value this other h) as Hm.
  pose proof (ComplexObjFacts.sqrt_value this h) as Hq.
  pose proof (@ComplexObjFacts.pow_value this n h Hthis) as Hp.
  destruct (ComplexObj.add this other h), (ComplexObj.sub this other h),
    (ComplexObj.mul this other h), (ComplexObj.sqrt this h).
  split; [exact Ha|]. split; [exact Hs|]. split; [exact Hm|].
  split; [exact Hq|]. split; [|apply pow_store_length].
  destruct (ComplexObj.pow this n h). exact Hp.
Qed.

Lemma methods_compute_values_witness :
  let h := [ComplexObj.Obj (Some (Num 2)) (Some (Num 1))] in
  let value out := ComplexObj.read (snd out) (fst out) in
  value (ComplexObj.mul 0%nat 0%nat h)
  = Complex.mul (Complex.mk (Num 2) (Num 1)) (Complex.mk (Num 2) (Num 1)) /\
  value (ComplexObj.pow 0%nat 3 h) = Complex.pow (Complex.mk (Num 2) (Num 1)) 3 /\
  List.length (snd (ComplexObj.pow 0%nat 3 h)) = 5%nat.
Proof.
  intros h value.
  destruct (@methods_compute_values h 0%nat 0%nat 3%Z) as (_ & _ & Hm & _ & Hp & Hl).
  - simpl. lia.
  - split; [exact Hm|]. split; [exact Hp | exact Hl].
Defined.

(* ===================================================================== *)
(** * Further facts: the two encodings *)
(* ===================================================================== *)

(** X8.  Each character is encoded on its own: the encoding of a
    concatenation is the concatenation of the encodings, for both
    transforms and all parameters. *)
Theorem encrypt_app (s t : jsstring) (key1 mod1 key2 mod2 key modVal : number) :
  encryptToTorus (s ++ t) key1 mod1 key2 mod2
  = encryptToTorus s key1 mod1 key2 mod2 ++ encryptToTorus t key1 mod1 key2 mod2 /\
  encryptToPolynomial (s ++ t) key modVal
  = encryptToPolynomial s key modVal ++ encryptToPolynomial t key modVal.
Proof.
  rewrite !encryptToTorus_map, !encryptToPolynomial_map, !map_app.
  split; reflexivity.
Qed.

(** On exact non-negative products, a key shifted by a multiple of the
    modulus leaves the same remainder. *)
Lemma rem64_key_period (c key m j : Z) :
  (0 <= c)%Z -> (1 <= m)%Z -> (0 <= key)%Z -> (0 <= j)%Z ->
  (Z.abs (c * (key + j * m)) < 2 ^ 53)%Z ->
  rem64 c (key + j * m) m = rem64 c key m.
Proof.
  intros Hc Hm Hk Hj He.
  assert (H0 : (0 <= c * key)%Z) by (apply Z.mul_nonneg_nonneg; assumption).
  assert (H1 : (0 <= c * j * m)%Z)
    by (repeat apply Z.mul_nonneg_nonneg; lia).
  assert (Hsum : (c * (key + j * m) = c * key + c * j * m)%Z) by ring.
  rewrite !rem64_exact by lia. f_equal.
  rewrite !Z.rem_mod_nonneg by lia.
  rewrite Hsum. apply Z_mod_plus_full.
Qed.

(** X9.  For integer parameters with moduli [>= 1] and keys [>= 0], as
    long as every product of a character code with a key is below 2^53, a
    key matters only modulo its modulus: adding a non-negative multiple of
    [mod1] to [key1], or of [mod2] to [key2], leaves the sequence returned
    by [encryptToTorus] unchanged. *)
Theorem encryptToTorus_key_period
  (text : jsstring) (key1 mod1 key2 mod2 j1 j2 : Z) :
  (1 <= mod1)%Z -> (1 <= mod2)%Z ->
  (0 <= key1)%Z -> (0 <= j1)%Z -> (0 <= key2)%Z -> (0 <= j2)%Z ->
  exact_products (key1 + j1 * mod1) text ->
  exact_products (key2 + j2 * mod2) text ->
  encryptToTorus64 text (key1 + j1 * mod1) mod1 (key2 + j2 * mod2) mod2
  = encryptToTorus64 text key1 mod1 key2 mod2.
Proof.
  intros H1 H2 Hk1 Hj1 Hk2 Hj2 E1 E2. rewrite !encryptToTorus64_map.
  unfold exact_products in E1, E2. rewrite Forall_forall in E1, E2.
  apply map_ext_in. intros c Hc.
  assert (H0 : (0 <= code_of c)%Z) by (unfold code_of; lia).
  unfold torus_point64.
  rewrite !rem64_key_period by auto. reflexivity.
Qed.

Lemma encryptToTorus_key_period_witness :
  encryptToTorus64 (lit "AB") (3 + 2 * 5) 5 (2 + 1 * 7) 7
  = encryptToTorus64 (lit "AB") 3 5 2 7.
Proof.
  apply (@encryptToTorus_key_period (lit "AB") 3 5 2 7 2 1); try lia;
    repeat constructor.
Defined.

(** Two congruent codes leave the same remainder after the product with
    one key, whatever the sign of the key. *)
Lemma rem_congruent (c c' key m : Z) :
  (0 <= c)%Z -> (0 <= c')%Z -> (1 <= m)%Z ->
  (c mod m = c' mod m)%Z ->
  Z.rem (c * key) m = Z.rem (c' * key) m.
Proof.
  intros Hc Hc' Hm E.
  assert (Hpos : forall k, (0 <= k)%Z -> Z.rem (c * k) m = Z.rem (c' * k) m).
  { intros k Hk.
    rewrite !Z.rem_mod_nonneg
      by (try lia; apply Z.mul_nonneg_nonneg; assumption).
    rewrite <- (Z.mul_mod_idemp_l c) by lia.
    rewrite <- (Z.mul_mod_idemp_l c') by lia. rewrite E. reflexivity. }
  destruct (Z.le_gt_cases 0 key) as [Hk|Hk]; [apply Hpos; exact Hk|].
  replace (c * key)%Z with (- (c * - key))%Z by ring.
  replace (c' * key)%Z with (- (c' * - key))%Z by ring.
  rewrite !Z.rem_opp_l by lia. f_equal. apply Hpos. lia.
Qed.

(** X10.  As long as every product of a character code with a key is
    below 2^53, [encryptToTorus] does not separate characters whose codes
    leave the same residues modulo [mod1] and modulo [mod2]: two texts that
    are congruent character by character get the same sequence of points
    (so a code and the same code plus [mod1 * mod2] collide). *)
Theorem encryptToTorus_collision
  (text text' : jsstring) (key1 mod1 key2 mod2 : Z) :
  (1 <= mod1)%Z -> (1 <= mod2)%Z ->
  exact_products key1 text -> exact_products key2 text ->
  exact_products key1 text' -> exact_products key2 text' ->
  Forall2 (congruent_codes mod1 mod2) text text' ->
  encryptToTorus64 text key1 mod1 key2 mod2
  = encryptToTorus64 text' key1 mod1 key2 mod2.
Proof.
  intros H1 H2 Ea Eb Ea' Eb' Hcong. rewrite !encryptToTorus64_map.
  unfold exact_products in *.
  induction Hcong as [|c c' text text' [E1 E2] _ IH]; [reflexivity|].
  apply Forall_cons_iff in Ea, Eb, Ea', Eb'.
  destruct Ea as [Pa Ea], Eb as [Pb Eb], Ea' as [Pa' Ea'], Eb' as [Pb' Eb'].
  cbn [map]. rewrite (IH Ea Eb Ea' Eb'). f_equal.
  assert (H0 : (0 <= code_of c)%Z) by (unfold code_of; lia).
  assert (H0' : (0 <= code_of c')%Z) by (unfold code_of; lia).
  unfold torus_point64. rewrite !rem64_exact by assumption.
  rewrite (@rem_congruent (code_of c) (code_of c') key1 mod1) by assumption.
  rewrite (@rem_congruent (code_of c) (code_of c') key2 mod2) by assumption.
  reflexivity.
Qed.

Lemma encryptToTorus_collision_witness :
  encryptToTorus64 (lit "A") 3 5 2 7 = encryptToTorus64 (lit "d") 3 5 2 7.
Proof.
  apply (@encryptToTorus_collision (lit "A") (lit "d") 3 5 2 7); try lia;
    repeat constructor.
Defined.

(** X11.  With both moduli equal to 1 the torus encoding is degenerate:
    for integer keys none of whose products with a character code
    overflows the range of the doubles, every character is sent to the
    point (4, 0, 0). *)
Theorem encryptToTorus_modulus_one (text : jsstring) (key1 key2 : Z) :
  finite_products key1 text -> finite_products key2 text ->
  encryptToTorus64 text key1 1 key2 1
  = repeat (Point3.mk (Num 4) (Num 0) (Num 0)) (List.length text).
Proof.
  intros F1 F2. rewrite encryptToTorus64_map, <- map_const.
  unfold finite_products in F1, F2. rewrite Forall_forall in F1, F2.
  apply map_ext_in. intros c Hc.
  rewrite torus_point64_angles by (try lia; auto).
  rewrite !angle64_zero by apply Z.rem_1_r.
  apply torus_at_0_0.
Qed.

Lemma encryptToTorus_modulus_one_witness :
  encryptToTorus64 (lit "AB") 3 1 (-2) 1
  = repeat (Point3.mk (Num 4) (Num 0) (Num 0)) 2.
Proof.
  apply (@encryptToTorus_modulus_one (lit "AB") 3 (-2)); repeat constructor.
Defined.

Lemma map_injective {A B : Type} (f : A -> B) :
  (forall a a', f a = f a' -> a = a') ->
  forall l l', map f l = map f l' -> l = l'.
Proof.
  intros Hf l. induction l as [|a l IH]; intros [|a' l'] E;
    try discriminate; [reflexivity|].
  cbn in E. injection E as Ea El. f_equal; [apply Hf, Ea | apply IH, El].
Qed.

Lemma polynomial_x (text : jsstring) (key modVal : number) :
  map Point3.x (encryptToPolynomial text key modVal)
  = map (fun c => (of_Z (code_of c) * Num 0.05)%js) text.
Proof.
  rewrite encryptToPolynomial_map, map_map. apply map_ext. intros c. reflexivity.
Qed.

(** X12.  The polynomial encoding keeps the text: the x-coordinate of a
    point is the character code times 0.05, so two texts with the same
    sequence of points are equal, even under different keys and moduli (a
    zero or [NaN] modulus included). *)
Theorem encryptToPolynomial_injective
  (text text' : jsstring) (key modVal key' modVal' : number) :
  encryptToPolynomial text key modVal = encryptToPolynomial text' key' modVal' ->
  text = text'.
Proof.
  intros E. apply (f_equal (map Point3.x)) in E.
  rewrite !polynomial_x in E.
  apply map_injective in E; [exact E|].
  intros c c' Hc. unfold of_Z in Hc. cbn in Hc. injection Hc as Hc.
  assert (Hz : IZR (code_of c) = IZR (code_of c')) by lra.
  apply eq_IZR in Hz. unfold code_of in Hz. lia.
Qed.

Lemma encryptToPolynomial_injective_witness : lit "AB" = lit "AB".
Proof.
  apply (@encryptToPolynomial_injective (lit "AB") (lit "AB")
           (of_Z 1) (of_Z 0) (of_Z 1) (of_Z 0)).
  reflexivity.
Defined.

(** The height of a polynomial point whose parts are finite. *)
Lemma poly_point_of_height (c imag : Z) :
  exists h : R,
    poly_point_of c imag
    = Point3.mk (Num (IZR c * 0.05)) (Num (IZR imag * 0.05)) (Num (h * 0.05)) /\
    0 <= h.
Proof.
  unfold poly_point_of, of_Z. rewrite pow_3_Num.
  unfold Complex.sub. cbn [Complex.re Complex.im Nsub lift2].
  set (a := IZR c). set (b := IZR imag).
  destruct (sqrt_re_nonneg (a * a * a - 3 * a * b * b - 1)
                           (3 * a * a * b - b * b * b - 0))
    as (u & v & Hs & Hu).
  rewrite Hs. cbn [Complex.re Complex.im Nmul lift2].
  exists u. split; [reflexivity | exact Hu].
Qed.

(** X13.  For an integer key and a modulus [modVal >= 1], as long as
    every product of a character code with the key is below 2^53, the point
    of a character with code [c] is [(c * 0.05, b * 0.05, h * 0.05)] where
    [b] is the integer [(c * key) rem modVal], of absolute value below
    [modVal] and of the sign of the key, and where the height [h] is
    finite and not negative. *)
Theorem encryptToPolynomial_coordinates (text : jsstring) (key modVal : Z) :
  (1 <= modVal)%Z -> exact_products key text ->
  Forall2 (fun c p =>
             exists (b : Z) (h : R),
               p = Point3.mk (Num (IZR (code_of c) * 0.05))
                             (Num (IZR b * 0.05)) (Num (h * 0.05)) /\
               b = Z.rem (code_of c * key) modVal /\
               (Z.abs b < modVal)%Z /\
               ((0 <= key)%Z -> (0 <= b)%Z) /\ ((key <= 0)%Z -> (b <= 0)%Z) /\
               0 <= h)
    text (encryptToPolynomial64 text key modVal).
Proof.
  intros Hm He. rewrite encryptToPolynomial64_map.
  unfold exact_products in He.
  induction He as [|c text Hc _ IH]; [constructor|].
  cbn [map]. apply Forall2_cons; [|exact IH].
  assert (Ha : (0 <= code_of c)%Z) by (unfold code_of; lia).
  rewrite (@poly_point64_rem _ _ _ (Z.rem (code_of c * key) modVal))
    by (apply rem64_exact; assumption).
  destruct (poly_point_of_height (code_of c) (Z.rem (code_of c * key) modVal))
    as (h & Hp & Hh).
  exists (Z.rem (code_of c * key) modVal), h.
  split; [exact Hp|]. split; [reflexivity|].
  split;
    [pose proof (Z.rem_bound_abs (code_of c * key) modVal ltac:(lia)); lia|].
  split; [|split; [|exact Hh]]; intros Hk.
  - apply Z.rem_nonneg; [lia | apply Z.mul_nonneg_nonneg; assumption].
  - apply Z.rem_nonpos; [lia | apply Z.mul_nonneg_nonpos; assumption].
Qed.

Lemma encryptToPolynomial_coordinates_witness :
  Forall2 (fun c p =>
             exists (b : Z) (h : R),
               p = Point3.mk (Num (IZR (code_of c) * 0.05))
                             (Num (IZR b * 0.05)) (Num (h * 0.05)) /\
               b = Z.rem (code_of c * -3) 7 /\
               (Z.abs b < 7)%Z /\
               ((0 <= -3)%Z -> (0 <= b)%Z) /\ ((-3 <= 0)%Z -> (b <= 0)%Z) /\
               0 <= h)
    (lit "AB") (encryptToPolynomial64 (lit "AB") (-3) 7).
Proof.
  apply (@encryptToPolynomial_coordinates (lit "AB") (-3) 7); [lia|].
  repeat constructor.
Defined.

(* ===================================================================== *)
(** * Further facts: mouse interaction and recomputation *)
(* ===================================================================== *)

Lemma moves_while_idle (es : list MouseEvent) (g : Globals) :
  dragging g = false -> run_events g (map MouseMove es) = g.
Proof.
  intros Hd. induction es as [|e es IH]; [reflexivity|].
  cbn [map run_events fold_left dispatch]. unfold mousemove. rewrite Hd.
  cbn [negb]. exact IH.
Qed.

(** X14.  The mouse rotates the view only between a press and the next
    release: moves received while no button is held change nothing, and
    after a release or after the pointer has left the canvas the following
    moves are ignored. *)
Theorem moves_ignored_unless_dragging (g : Globals) (es : list MouseEvent) :
  (dragging g = false -> run_events g (map MouseMove es) = g) /\
  run_events g (MouseUp :: map MouseMove es) = mouseup_or_leave g /\
  run_events g (MouseLeave :: map MouseMove es) = mouseup_or_leave g.
Proof.
  split; [apply moves_while_idle|].
  split; cbn [run_events fold_left dispatch];
    apply (@moves_while_idle es (mouseup_or_leave g)); reflexivity.
Qed.

Lemma moves_ignored_unless_dragging_witness :
  run_events initial
    (map MouseMove [{| clientX := 10; clientY := 20 |};
                    {| clientX := 300; clientY := -40 |}]) = initial.
Proof.
  apply (proj1 (moves_ignored_unless_dragging initial
                  [{| clientX := 10; clientY := 20 |};
                   {| clientX := 300; clientY := -40 |}])).
  reflexivity.
Defined.

(** Mouse events leave the stored points and the flags alone. *)
Lemma dispatch_data (g : Globals) (ev : pointer_event) :
  torusData (dispatch g ev) = torusData g /\
  polyData (dispatch g ev) = polyData g /\
  showTorus (dispatch g ev) = showTorus g /\
  showComplex (dispatch g ev) = showComplex g.
Proof.
  destruct ev as [e|e| |]; cbn [dispatch]; try (repeat split; reflexivity).
  unfold mousemove. destruct (dragging g); repeat split; reflexivity.
Qed.

Lemma dispatch_program_ok (g : Globals) (ev : pointer_event) :
  program_ok g -> program_ok (dispatch g ev).
Proof.
  intros (Hv & Hht & Hhp & Hlen).
  destruct (dispatch_data g ev) as (Et & Ep & Est & Esp).
  unfold program_ok. rewrite Et, Ep, Est, Esp.
  split; [apply dispatch_ok; exact Hv|]. auto.
Qed.

Lemma updateVisualisation_program_ok
      (parseInt : jsstring -> number -> number) (doc : Document) (g : Globals) :
  program_ok g -> program_ok (snd (fst (updateVisualisation parseInt doc g))).
Proof.
  intros (Hv & _). unfold updateVisualisation. cbn [fst snd].
  unfold program_ok.
  cbn [rotX rotY dragging lastMouse torusData polyData showTorus showComplex].
  split; [exact Hv|]. split; [|split].
  - intros ->. reflexivity.
  - intros ->. reflexivity.
  - intros -> ->. cbn [andb].
    destruct (0 <? List.length (inputText_value doc))%nat; [|reflexivity].
    rewrite encryptToTorus_map, encryptToPolynomial_map, !length_map. reflexivity.
Qed.

Lemma initial_program_ok : program_ok initial.
Proof.
  split; [exact initial_ok|]. cbn.
  split; [discriminate|]. split; [discriminate|]. reflexivity.
Qed.

Lemma run_actions_ok (parseInt : jsstring -> number -> number)
      (actions : list action) (g : Globals) :
  program_ok g -> program_ok (run_actions parseInt g actions).
Proof.
  revert g. induction actions as [|a actions IH]; intros g Hok; [exact Hok|].
  cbn [run_actions fold_left]. apply IH.
  destruct a as [ev|doc]; cbn [perform];
    [apply dispatch_program_ok | apply updateVisualisation_program_ok]; exact Hok.
Qed.

(** X16.  Whatever the page holds and whatever the host's [parseInt]
    returns, after any interleaving of mouse events and runs of
    [updateVisualisation] from the initial state: [rotX] is within the
    limit; a hidden surface has no stored points; and when both surfaces
    are shown they have the same number of points. *)
Theorem program_invariant (parseInt : jsstring -> number -> number)
        (actions : list action) :
  let g := run_actions parseInt initial actions in
  (exists r, rotX g = Num r /\ - limit <= r <= limit) /\
  (showTorus g = false -> torusData g = []) /\
  (showComplex g = false -> polyData g = []) /\
  (showTorus g = true -> showComplex g = true ->
   List.length (torusData g) = List.length (polyData g)).
Proof.
  intros g.
  destruct (@run_actions_ok parseInt actions initial initial_program_ok)
    as ((Hx & _) & H).
  split; [exact Hx | exact H].
Qed.

Lemma program_invariant_witness :
  let g := run_actions DecimalHost.parseInt initial
             [Recompute sample_page;
              Pointer (MouseDown {| clientX := 0; clientY := 0 |});
              Pointer (MouseMove {| clientX := 30; clientY := 5000 |});
              Recompute page_torus_hidden] in
  (exists r, rotX g = Num r /\ - limit <= r <= limit) /\
  torusData g = [].
Proof.
  intros g.
  destruct (program_invariant DecimalHost.parseInt
              [Recompute sample_page;
               Pointer (MouseDown {| clientX := 0; clientY := 0 |});
               Pointer (MouseMove {| clientX := 30; clientY := 5000 |});
               Recompute page_torus_hidden])
    as (Hx & Hhid & _).
  split; [exact Hx|]. apply Hhid. reflexivity.
Defined.

(** X17.  [updateVisualisation] is idempotent: run again on the page and
    the variables it has just produced, it produces them again.  The two
    ['change'] handlers do what the button does: the assignment they make
    before calling it has no effect on the outcome. *)
Theorem updateVisualisation_idempotent
        (parseInt : jsstring -> number -> number) (doc : Document) (g : Globals) :
  let out := updateVisualisation parseInt doc g in
  updateVisualisation parseInt (snd out) (snd (fst out)) = out /\
  on_showTorus_change parseInt doc g = out /\
  on_showComplex_change parseInt doc g = out.
Proof.
  intros out. subst out. repeat split.
Qed.

(* ===================================================================== *)
(** * Further facts: projection *)
(* ===================================================================== *)

(** The projection of a finite point in a finite view, when the depth is
    not zero. *)
Lemma projectPoint_Num (g : Globals) (cv : Canvas) (rx ry x y z : R) :
  rotX g = Num rx -> rotY g = Num ry ->
  let '(x2, y1, z2) := rotated rx ry x y z in
  z2 + 10 <> 0 ->
  projectPoint g cv (Point3.mk (Num x) (Num y) (Num z))
  = Projected.mk
      (Num (x2 * (10 / (z2 + 10)) * 120 + INR (canvas_width cv) / 2))
      (Num (- y1 * (10 / (z2 + 10)) * 120 + INR (canvas_height cv) / 2))
      (Num (z2 + 10)).
Proof.
  intros Hx Hy. cbv beta iota zeta delta [rotated]. intros Hz.
  unfold projectPoint, cameraDistance, scaleFactor, of_nat.
  rewrite Hx, Hy. cbn [Point3.x Point3.y Point3.z Math.cos Math.sin lift1
                       Nmul Nadd Nsub Nneg lift2].
  rewrite !Ndiv_Num by (try exact Hz; lra). reflexivity.
Qed.

(** The rotation keeps the distance to the origin. *)
Lemma rotated_norm (rx ry x y z : R) :
  let '(x2, y1, z2) := rotated rx ry x y z in
  x2 * x2 + y1 * y1 + z2 * z2 = x * x + y * y + z * z.
Proof.
  cbv beta iota zeta delta [rotated].
  pose proof (sin2_cos2 rx) as Hx. pose proof (sin2_cos2 ry) as Hy.
  unfold Rsqr in Hx, Hy.
  set (y1 := y * cos rx - z * sin rx).
  set (z1 := y * sin rx + z * cos rx).
  assert (E1 : (x * cos ry + z1 * sin ry) * (x * cos ry + z1 * sin ry)
               + (- x * sin ry + z1 * cos ry) * (- x * sin ry + z1 * cos ry)
               = (x * x + z1 * z1) * (sin ry * sin ry + cos ry * cos ry))
    by ring.
  assert (E2 : y1 * y1 + z1 * z1
               = (y * y + z * z) * (sin rx * sin rx + cos rx * cos rx))
    by (unfold y1, z1; ring).
  rewrite Hy in E1. rewrite Hx in E2. lra.
Qed.

Lemma projectPoint_within (g : Globals) (cv : Canvas) (rx ry x y z rho : R) :
  rotX g = Num rx -> rotY g = Num ry ->
  0 <= rho < 10 -> x * x + y * y + z * z <= rho * rho ->
  projected_within (10 - rho) (10 + rho)
    (projectPoint g cv (Point3.mk (Num x) (Num y) (Num z))).
Proof.
  intros Hx Hy Hrho Hnorm.
  pose proof (@projectPoint_Num g cv rx ry x y z Hx Hy) as Hp.
  pose proof (rotated_norm rx ry x y z) as Hn.
  destruct (rotated rx ry x y z) as [[x2 y1] z2].
  assert (Hz : - rho <= z2 <= rho) by (split; nra).
  rewrite Hp by lra.
  unfold projected_within. do 3 eexists. split; [reflexivity | lra].
Qed.

(** X18.  In a finite view, a finite point at distance at most [rho < 10]
    from the origin has a finite projection whose depth lies between
    [10 - rho] and [10 + rho]: the rotation keeps the distance to the
    origin, so the perspective division never meets a zero depth. *)
Theorem projectPoint_depth (g : Globals) (cv : Canvas) (rx ry x y z rho : R) :
  rotX g = Num rx -> rotY g = Num ry ->
  0 <= rho < 10 -> x * x + y * y + z * z <= rho * rho ->
  projected_within (10 - rho) (10 + rho)
    (projectPoint g cv (Point3.mk (Num x) (Num y) (Num z))).
Proof. apply projectPoint_within. Qed.

Lemma projectPoint_depth_witness :
  projected_within (10 - 3) (10 + 3)
    (projectPoint initial {| canvas_width := 800; canvas_height := 600 |}
       (Point3.mk (Num 1) (Num (-2)) (Num 2))).
Proof.
  apply (@projectPoint_depth initial {| canvas_width := 800; canvas_height := 600 |}
           0.4 0.8 1 (-2) 2 3); try reflexivity; lra.
Defined.

Lemma projectPoint_origin (g : Globals) (cv : Canvas) :
  view_ok g ->
  projectPoint g cv origin
  = Projected.mk (Num (INR (canvas_width cv) / 2))
                 (Num (INR (canvas_height cv) / 2)) (Num 10).
Proof.
  intros ((rx & Hx & _) & (ry & Hy) & _).
  pose proof (@projectPoint_Num g cv rx ry 0 0 0 Hx Hy) as Hp.
  cbv beta iota zeta delta [rotated] in Hp.
  assert (Hz : - 0 * sin ry + (0 * sin rx + 0 * cos rx) * cos ry + 10 = 10)
    by ring.
  unfold origin. rewrite Hp by (rewrite Hz; lra).
  rewrite Hz. f_equal; f_equal; lra.
Qed.

(** X19.  In every state the program can reach, and whatever the rotation
    then is, the origin projects to the centre of the canvas at depth 10;
    after [resizeCanvas] that is the centre of the container. *)
Theorem origin_projects_to_centre
        (parseInt : jsstring -> number -> number) (actions : list action)
        (cv : Canvas) (clientWidth clientHeight : nat) :
  let g := run_actions parseInt initial actions in
  projectPoint g cv origin
  = Projected.mk (Num (INR (canvas_width cv) / 2))
                 (Num (INR (canvas_height cv) / 2)) (Num 10) /\
  projectPoint g (resizeCanvas clientWidth clientHeight cv) origin
  = Projected.mk (Num (INR clientWidth / 2)) (Num (INR clientHeight / 2)) (Num 10).
Proof.
  intros g.
  assert (Hv : view_ok g)
    by (apply (@run_actions_ok parseInt actions initial initial_program_ok)).
  split; apply projectPoint_origin; exact Hv.
Qed.

(** A point of the torus is at distance at most 5 from the origin, so in a
    finite view its projection is finite, at a depth between 5 and 15. *)
Lemma torus_at_projected (g : Globals) (cv : Canvas) (theta phi : R) :
  view_ok g -> projected_within 5 15 (projectPoint g cv (torus_at theta phi)).
Proof.
  intros ((rx & Hx & _) & (ry & Hy) & _).
  destruct (torus_at_band theta phi) as (x & y & z & -> & Hxy & Hz).
  replace 5 with (10 - 5) at 1 by ring. replace 15 with (10 + 5) by ring.
  apply (@projectPoint_within g cv rx ry x y z 5 Hx Hy); [lra|].
  assert (z * z <= 1).
  { assert (- 1 <= z <= 1)
      by (unfold Rabs in Hz; destruct (Rcase_abs z); lra).
    nra. }
  lra.
Qed.

(* ===================================================================== *)
(** * Further facts: drawing *)
(* ===================================================================== *)

Lemma for_lt_ext {S : Type} (n : nat) (body body' : nat -> S -> S) :
  (forall j s, body j s = body' j s) ->
  forall i s, for_lt n body i s = for_lt n body' i s.
Proof.
  intros Hext i. remember (n - i)%nat as k eqn:Hk.
  revert i Hk. induction k as [|k IH]; intros i Hk s.
  - rewrite !for_lt_done by lia. reflexivity.
  - rewrite (@for_lt_step _ n body i s), (@for_lt_step _ n body' i s) by lia.
    rewrite Hext. apply IH. lia.
Qed.

(** A loop whose body appends to a log appends the pieces in index order. *)
Lemma for_lt_append {A : Type} (n : nat) (f : nat -> list A) (i : nat)
      (log : list A) :
  for_lt n (fun k c => c ++ f k) i log
  = log ++ List.concat (map f (seq i (n - i))).
Proof.
  remember (n - i)%nat as k eqn:Hk.
  revert i log Hk. induction k as [|k IH]; intros i log Hk.
  - rewrite for_lt_done by lia. simpl. rewrite app_nil_r. reflexivity.
  - rewrite for_lt_step by lia. rewrite IH by lia.
    simpl. rewrite <- app_assoc. reflexivity.
Qed.

Lemma ring_loop (g : Globals) (cv : Canvas) (n : nat) (f : nat -> Projected.t)
      (ctx : context) :
  push (for_le n (fun k c => move_or_line k (f k) c) 0 (push ctx beginPath)) stroke
  = ctx ++ ring_ops n f.
Proof.
  unfold for_le.
  rewrite (@for_lt_ext _ (S n) (fun k c => move_or_line k (f k) c)
             (fun k c => c ++ [path_op k (f k)])).
  - rewrite (@for_lt_append _ (S n) (fun k => [path_op k (f k)]) 0).
    rewrite Nat.sub_0_r. unfold push, ring_ops.
    rewrite <- !app_assoc.
    replace (List.concat (map (fun k => [path_op k (f k)]) (seq 0 (S n))))
      with (map (fun k => path_op k (f k)) (seq 0 (S n))); [reflexivity|].
    induction (seq 0 (S n)) as [|k l IH]; [reflexivity|].
    cbn [map List.concat app]. rewrite IH. reflexivity.
  - intros k c. unfold move_or_line, path_op, push.
    destruct (Nat.eqb k 0); reflexivity.
Qed.

(** [drawTorusGrid] appends [grid_ops] to the log. *)
Lemma drawTorusGrid_ops (g : Globals) (cv : Canvas) (ctx : context) :
  drawTorusGrid g cv ctx = ctx ++ grid_ops g cv.
Proof.
  unfold drawTorusGrid, grid_ops. cbv zeta.
  set (ring1 := fun i => ring_ops 12
                 (fun j => projectPoint g cv (grid_point 24 12 i j))).
  set (ring2 := fun j => ring_ops 24
                 (fun i => projectPoint g cv (grid_point 24 12 i j))).
  assert (H1 : forall c, for_le 24
             (fun i ctx0 =>
                push (for_le 12
                        (fun j ctx1 =>
                           move_or_line j
                             (projectPoint g cv (grid_point 24 12 i j)) ctx1)
                        0 (push ctx0 beginPath)) stroke) 0 c
             = c ++ List.concat (map ring1 (seq 0 25))).
  { intros c. unfold for_le at 1.
    rewrite (@for_lt_ext _ 25 _ (fun i c0 => c0 ++ ring1 i))
      by (intros i c0; apply (ring_loop g cv)).
    rewrite (@for_lt_append _ 25 ring1 0). reflexivity. }
  assert (H2 : forall c, for_le 12
             (fun j ctx0 =>
                push (for_le 24
                        (fun i ctx1 =>
                           move_or_line i
                             (projectPoint g cv (grid_point 24 12 i j)) ctx1)
                        0 (push ctx0 beginPath)) stroke) 0 c
             = c ++ List.concat (map ring2 (seq 0 13))).
  { intros c. unfold for_le at 1.
    rewrite (@for_lt_ext _ 13 _ (fun j c0 => c0 ++ ring2 j))
      by (intros j c0; apply (ring_loop g cv)).
    rewrite (@for_lt_append _ 13 ring2 0). reflexivity. }
  rewrite H2, H1. unfold push. rewrite <- !app_assoc. reflexivity.
Qed.

Lemma vertices_app (l l' : list canvas_op) :
  vertices (l ++ l') = vertices l ++ vertices l'.
Proof.
  induction l as [|op l IH]; [reflexivity|].
  destruct op; simpl; rewrite ?IH; reflexivity.
Qed.

Lemma markers_app (l l' : list canvas_op) :
  markers (l ++ l') = markers l ++ markers l'.
Proof.
  induction l as [|op l IH]; [reflexivity|].
  destruct op; simpl; rewrite ?IH; reflexivity.
Qed.

Lemma vertices_concat (ls : list (list canvas_op)) :
  vertices (List.concat ls) = List.concat (map vertices ls).
Proof.
  induction ls as [|l ls IH]; [reflexivity|].
  cbn [List.concat map]. rewrite vertices_app, IH. reflexivity.
Qed.

Lemma markers_concat_nil (ls : list (list canvas_op)) :
  Forall (fun l => markers l = []) ls -> markers (List.concat ls) = [].
Proof.
  induction 1 as [|l ls Hl _ IH]; [reflexivity|].
  cbn [List.concat]. rewrite markers_app, Hl, IH. reflexivity.
Qed.

Lemma count_concat_map {A : Type} (p : canvas_op -> bool)
      (f : A -> list canvas_op) (k : nat) (l : list A) :
  (forall a, List.length (filter p (f a)) = k) ->
  List.length (filter p (List.concat (map f l))) = (k * List.length l)%nat.
Proof.
  intros Hf. induction l as [|a l IH]; [simpl; lia|].
  cbn [map List.concat]. rewrite filter_app, length_app, Hf, IH. simpl. lia.
Qed.

Lemma length_concat_map {A B : Type} (f : A -> list B) (k : nat) (l : list A) :
  (forall a, List.length (f a) = k) ->
  List.length (List.concat (map f l)) = (k * List.length l)%nat.
Proof.
  intros Hf. induction l as [|a l IH]; [simpl; lia|].
  cbn [map List.concat]. rewrite length_app, Hf, IH. simpl. lia.
Qed.

(** The vertices of a path after the first are joined by [lineTo]. *)
Lemma path_ops_from (f : nat -> Projected.t) (n s : nat) :
  (1 <= s)%nat ->
  map (fun k => path_op k (f k)) (seq s n) = map (fun k => lineTo_of (f k)) (seq s n).
Proof.
  revert s. induction n as [|n IH]; intros s Hs; [reflexivity|].
  cbn [seq map]. rewrite IH by lia. f_equal.
  unfold path_op. destruct s; [lia | reflexivity].
Qed.

Lemma ring_ops_shape (n : nat) (f : nat -> Projected.t) :
  ring_ops n f
  = [beginPath; moveTo (Projected.sx (f 0%nat)) (Projected.sy (f 0%nat))]
    ++ map (fun k => lineTo_of (f k)) (seq 1 n) ++ [stroke].
Proof.
  unfold ring_ops. cbn [seq map]. rewrite path_ops_from by lia. reflexivity.
Qed.

Lemma filter_lineTo_of (p : canvas_op -> bool) (b : bool) (l : list Projected.t) :
  (forall q, p (lineTo_of q) = b) ->
  List.length (filter p (map lineTo_of l)) = if b then List.length l else 0%nat.
Proof.
  intros Hp. induction l as [|q l IH]; [destruct b; reflexivity|].
  cbn [map filter]. rewrite Hp. destruct b; cbn [List.length]; rewrite IH; reflexivity.
Qed.

Lemma markers_lineTo (l : list Projected.t) : markers (map lineTo_of l) = [].
Proof. induction l as [|q l IH]; [reflexivity | exact IH]. Qed.

Lemma vertices_lineTo (l : list Projected.t) :
  vertices (map lineTo_of l) = map screen_of l.
Proof.
  induction l as [|q l IH]; [reflexivity|].
  simpl. rewrite IH. reflexivity.
Qed.

Lemma ring_ops_counts (n : nat) (f : nat -> Projected.t) :
  List.length (ring_ops n f) = (n + 3)%nat /\
  List.length (filter is_stroke (ring_ops n f)) = 1%nat /\
  List.length (filter is_moveTo (ring_ops n f)) = 1%nat /\
  List.length (filter is_lineTo (ring_ops n f)) = n /\
  markers (ring_ops n f) = [] /\
  vertices (ring_ops n f) = map (fun k => screen_of (f k)) (seq 0 (S n)).
Proof.
  rewrite ring_ops_shape.
  rewrite <- (map_map f lineTo_of).
  set (l := map f (seq 1 n)).
  assert (Hl : List.length l = n) by (unfold l; rewrite length_map, length_seq; reflexivity).
  split; [rewrite !length_app, length_map; simpl; lia|].
  split; [|split; [|split; [|split]]].
  - rewrite !filter_app, !length_app.
    rewrite (@filter_lineTo_of is_stroke false) by reflexivity. reflexivity.
  - rewrite !filter_app, !length_app.
    rewrite (@filter_lineTo_of is_moveTo false) by reflexivity. reflexivity.
  - rewrite !filter_app, !length_app.
    rewrite (@filter_lineTo_of is_lineTo true) by reflexivity. simpl. lia.
  - rewrite !markers_app, markers_lineTo. reflexivity.
  - rewrite !vertices_app, vertices_lineTo.
    unfold l. rewrite map_map. simpl. rewrite app_nil_r. reflexivity.
Qed.

(** The grid points are the points of the torus at the angles
    [2 pi i / 24] and [2 pi j / 12]. *)
Lemma grid_point_angles (i j : nat) :
  grid_point 24 12 i j
  = torus_at (INR i / 24 * 2 * PI) (INR j / 12 * 2 * PI).
Proof.
  unfold grid_point, of_nat. cbv zeta.
  rewrite !Ndiv_Num by (apply not_0_INR; lia).
  replace (INR 24) with 24 by (simpl; lra).
  replace (INR 12) with 12 by (simpl; lra).
  reflexivity.
Qed.

Lemma projected_within_finite (lo hi : R) (q : Projected.t) :
  projected_within lo hi q -> finite_vertex (screen_of q).
Proof.
  intros (sx & sy & d & -> & _). split; cbn; eexists; reflexivity.
Qed.

Ltac ring_fact :=
  intros;
  match goal with
  | |- context [ring_ops ?n ?f] =>
      destruct (ring_ops_counts n f) as (? & ? & ? & ? & ? & ?); assumption
  end.

Lemma grid_ops_counts (g : Globals) (cv : Canvas) :
  List.length (grid_ops g cv) = 728%nat /\
  List.length (filter is_moveTo (grid_ops g cv)) = 38%nat /\
  List.length (filter is_lineTo (grid_ops g cv)) = 612%nat /\
  List.length (filter is_stroke (grid_ops g cv)) = 38%nat /\
  markers (grid_ops g cv) = [].
Proof.
  unfold grid_ops.
  set (ring1 := fun i => ring_ops 12
                 (fun j => projectPoint g cv (grid_point 24 12 i j))).
  set (ring2 := fun j => ring_ops 24
                 (fun i => projectPoint g cv (grid_point 24 12 i j))).
  split.
  { rewrite !length_app.
    rewrite (@length_concat_map _ _ ring1 15) by (unfold ring1; ring_fact).
    rewrite (@length_concat_map _ _ ring2 27) by (unfold ring2; ring_fact).
    rewrite !length_seq. reflexivity. }
  split.
  { rewrite !filter_app, !length_app.
    rewrite (@count_concat_map _ is_moveTo ring1 1) by (unfold ring1; ring_fact).
    rewrite (@count_concat_map _ is_moveTo ring2 1) by (unfold ring2; ring_fact).
    rewrite !length_seq. reflexivity. }
  split.
  { rewrite !filter_app, !length_app.
    rewrite (@count_concat_map _ is_lineTo ring1 12) by (unfold ring1; ring_fact).
    rewrite (@count_concat_map _ is_lineTo ring2 24) by (unfold ring2; ring_fact).
    rewrite !length_seq. reflexivity. }
  split.
  { rewrite !filter_app, !length_app.
    rewrite (@count_concat_map _ is_stroke ring1 1) by (unfold ring1; ring_fact).
    rewrite (@count_concat_map _ is_stroke ring2 1) by (unfold ring2; ring_fact).
    rewrite !length_seq. reflexivity. }
  rewrite !markers_app.
  rewrite !markers_concat_nil; [reflexivity | |];
    apply Forall_map, Forall_forall; intros k _; unfold ring1, ring2; ring_fact.
Qed.

Lemma grid_vertices_finite (g : Globals) (cv : Canvas) :
  view_ok g -> Forall finite_vertex (vertices (grid_ops g cv)).
Proof.
  intros Hv. unfold grid_ops.
  rewrite !vertices_app, !vertices_concat.
  apply Forall_app. split; [simpl; constructor|].
  apply Forall_app. split; apply Forall_concat, Forall_map, Forall_map,
    Forall_forall; intros k _.
  - destruct (ring_ops_counts 12
                (fun j => projectPoint g cv (grid_point 24 12 k j)))
      as (_ & _ & _ & _ & _ & ->).
    apply Forall_map, Forall_forall. intros j _.
    apply (@projected_within_finite 5 15).
    rewrite grid_point_angles. apply torus_at_projected. exact Hv.
  - destruct (ring_ops_counts 24
                (fun i => projectPoint g cv (grid_point 24 12 i k)))
      as (_ & _ & _ & _ & _ & ->).
    apply Forall_map, Forall_forall. intros i _.
    apply (@projected_within_finite 5 15).
    rewrite grid_point_angles. apply torus_at_projected. exact Hv.
Qed.

(** X21.  What [drawTorusGrid] adds to the drawing, operation by
    operation: the stroke colour and the line width, then one path per
    value of [i] from 0 to 24 through the 13 grid points [j = 0 .. 12], then
    one path per value of [j] from 0 to 12 through the 25 grid points
    [i = 0 .. 24]; each path is begun, moved to its first vertex, drawn by
    a line to each further vertex in order, and stroked.  The vertices are
    the projections of the points of the torus at the angles [2 pi i / 24]
    and [2 pi j / 12].  That is 728 operations; and in every state the
    program can reach, every vertex of the grid is finite. *)
Theorem drawTorusGrid_paths
        (parseInt : jsstring -> number -> number) (actions : list action)
        (g : Globals) (cv : Canvas) (ctx : context) :
  let vertex gl i j := projectPoint gl cv (grid_point 24 12 i j) in
  let path n f :=
    [beginPath; moveTo (Projected.sx (f 0%nat)) (Projected.sy (f 0%nat))]
    ++ map (fun k => lineTo (Projected.sx (f k)) (Projected.sy (f k))) (seq 1 n)
    ++ [stroke] in
  let grid gl :=
    [set_strokeStyle "#dddddd"; set_lineWidth (Num 1)]
    ++ List.concat (map (fun i => path 12%nat (fun j => vertex gl i j)) (seq 0 25))
    ++ List.concat (map (fun j => path 24%nat (fun i => vertex gl i j)) (seq 0 13)) in
  drawTorusGrid g cv ctx = ctx ++ grid g /\
  List.length (grid g) = 728%nat /\
  (forall i j : nat,
     grid_point 24 12 i j
     = Point3.mk
         (Num ((3 + 1 * cos (INR j / 12 * 2 * PI)) * cos (INR i / 24 * 2 * PI)))
         (Num ((3 + 1 * cos (INR j / 12 * 2 * PI)) * sin (INR i / 24 * 2 * PI)))
         (Num (1 * sin (INR j / 12 * 2 * PI)))) /\
  Forall finite_vertex
    (vertices (grid (run_actions parseInt initial actions))).
Proof.
  intros vertex path grid.
  assert (Hgrid : forall gl, grid gl = grid_ops gl cv).
  { intros gl. unfold grid, grid_ops. f_equal. }
  rewrite (Hgrid g), (Hgrid (run_actions parseInt initial actions)).
  destruct (grid_ops_counts g cv) as (Hlen & _).
  split; [apply drawTorusGrid_ops|].
  split; [exact Hlen|].
  split; [intros i j; apply grid_point_angles|].
  apply grid_vertices_finite.
  apply (@run_actions_ok parseInt actions initial initial_program_ok).
Qed.

Lemma skipn_nth_error {A : Type} (l : list A) (i : nat) (a : A) :
  nth_error l i = Some a -> skipn i l = a :: skipn (S i) l.
Proof.
  revert i. induction l as [|b l IH]; intros [|i] H; try discriminate.
  - cbn in H. injection H as ->. reflexivity.
  - cbn in H. cbn [skipn]. rewrite (IH i H). reflexivity.
Qed.

(** The loop of [drawDataSet] never reads outside the array. *)
Lemma lineTo_loop (projected : list Projected.t) (i : nat) (ctx : context) :
  (i <= List.length projected)%nat ->
  for_lt (List.length projected)
    (fun i (octx : option context) =>
       match octx with
       | None => None
       | Some ctx =>
           match nth_error projected i with
           | None => None
           | Some p => Some (push ctx (lineTo (Projected.sx p) (Projected.sy p)))
           end
       end)
    i (Some ctx)
  = Some (ctx ++ map lineTo_of (skipn i projected)).
Proof.
  remember (List.length projected - i)%nat as k eqn:Hk.
  revert i ctx Hk. induction k as [|k IH]; intros i ctx Hk Hi.
  - rewrite for_lt_done by lia.
    rewrite skipn_all2 by lia. simpl. rewrite app_nil_r. reflexivity.
  - rewrite for_lt_step by lia.
    destruct (nth_error projected i) as [p|] eqn:Hp.
    + rewrite IH by lia. rewrite (skipn_nth_error _ _ Hp).
      unfold push. cbn [map]. rewrite <- app_assoc. reflexivity.
    + apply nth_error_None in Hp. lia.
Qed.

Lemma markers_fold (projected : list Projected.t) (ctx : context) :
  fold_left
    (fun ctx p =>
       let ctx := push ctx beginPath in
       let ctx := push ctx (arc (Projected.sx p) (Projected.sy p)
                                (Num 4) (Num 0) (Num 2 * Math.PI)%js) in
       push ctx fill)
    projected ctx
  = ctx ++ List.concat (map marker_ops projected).
Proof.
  revert ctx. induction projected as [|p l IH]; intros ctx.
  - simpl. rewrite app_nil_r. reflexivity.
  - cbn [fold_left map List.concat]. rewrite IH. unfold push, marker_ops.
    rewrite <- !app_assoc. reflexivity.
Qed.

(** [drawDataSet] returns normally and appends [dataset_ops]. *)
Lemma drawDataSet_ops (g : Globals) (cv : Canvas) (pts : list Point3.t)
      (color : string) (ctx : context) :
  drawDataSet g cv pts color ctx
  = Some (ctx ++ dataset_ops color (map (projectPoint g cv) pts)).
Proof.
  unfold drawDataSet. destruct pts as [|p0 rest].
  - cbn. rewrite app_nil_r. reflexivity.
  - cbn [List.length Nat.eqb map nth_error].
    set (q0 := projectPoint g cv p0).
    set (qs := map (fun p => projectPoint g cv p) rest).
    change (S (List.length rest)) with (S (List.length rest)).
    replace (List.length rest) with (List.length qs)
      by (unfold qs; apply length_map).
    change (S (List.length qs)) with (List.length (q0 :: qs)).
    rewrite (@lineTo_loop (q0 :: qs) 1) by (simpl; lia).
    cbn [skipn]. rewrite markers_fold. unfold push, dataset_ops.
    rewrite <- !app_assoc. reflexivity.
Qed.

Lemma marker_ops_facts (l : list Projected.t) :
  vertices (List.concat (map marker_ops l)) = [] /\
  markers (List.concat (map marker_ops l)) = map screen_of l /\
  List.length (List.concat (map marker_ops l)) = (3 * List.length l)%nat /\
  List.length (filter is_stroke (List.concat (map marker_ops l))) = 0%nat /\
  List.length (filter is_moveTo (List.concat (map marker_ops l))) = 0%nat /\
  List.length (filter is_lineTo (List.concat (map marker_ops l))) = 0%nat.
Proof.
  induction l as [|p l (Hv & Hm & Hlen & Hs & Hmv & Hl)];
    [repeat split; reflexivity|].
  cbn [map List.concat].
  rewrite vertices_app, markers_app, !filter_app, !length_app.
  rewrite Hv, Hm, Hlen, Hs, Hmv, Hl.
  repeat split; try reflexivity. simpl. lia.
Qed.

Lemma dataset_ops_facts (color : string) (l : list Projected.t) :
  vertices (dataset_ops color l) = map screen_of l /\
  markers (dataset_ops color l) = map screen_of l /\
  List.length (filter is_moveTo (dataset_ops color l))
  = Nat.min 1 (List.length l) /\
  List.length (filter is_lineTo (dataset_ops color l)) = (List.length l - 1)%nat /\
  List.length (filter is_stroke (dataset_ops color l))
  = Nat.min 1 (List.length l) /\
  List.length (dataset_ops color l)
  = match l with [] => 0%nat | _ :: _ => (4 * List.length l + 5)%nat end.
Proof.
  destruct l as [|q0 qs]; [repeat split; reflexivity|].
  destruct (marker_ops_facts (q0 :: qs)) as (Hv & Hm & Hlen & Hs & Hmv & Hl).
  unfold dataset_ops.
  split; [|split; [|split; [|split; [|split]]]].
  - rewrite !vertices_app, vertices_lineTo, Hv. simpl.
    rewrite app_nil_r. reflexivity.
  - rewrite !markers_app, markers_lineTo, Hm. reflexivity.
  - rewrite !filter_app, !length_app, Hmv.
    rewrite (@filter_lineTo_of is_moveTo false) by reflexivity. reflexivity.
  - rewrite !filter_app, !length_app, Hl.
    rewrite (@filter_lineTo_of is_lineTo true) by reflexivity. simpl. lia.
  - rewrite !filter_app, !length_app, Hs.
    rewrite (@filter_lineTo_of is_stroke false) by reflexivity. reflexivity.
  - rewrite !length_app, length_map, Hlen. simpl. lia.
Qed.

(** X22.  [drawDataSet] always returns normally: its loop never reads
    outside the array of projected points.  For the empty sequence it adds
    nothing to the drawing.  Otherwise it adds, in this order: the stroke
    colour, the line width 2, the beginning of a path, a move to the
    projection of the first point, a line to the projection of each further
    point in order (no closing segment), the stroke, the fill colour, and
    then for each point in order a new path, an arc of radius 4 from 0 to
    [2 pi] around its projection, and the fill: [4 n + 5] operations for
    [n] points. *)
Theorem drawDataSet_polyline (g : Globals) (cv : Canvas) (pts : list Point3.t)
        (color : string) (ctx : context) :
  let projected := map (projectPoint g cv) pts in
  let added :=
    match projected with
    | [] => []
    | first :: rest =>
        [set_strokeStyle color; set_lineWidth (Num 2); beginPath;
         moveTo (Projected.sx first) (Projected.sy first)]
        ++ map (fun p => lineTo (Projected.sx p) (Projected.sy p)) rest
        ++ [stroke; set_fillStyle color]
        ++ List.concat
             (map (fun p =>
                     [beginPath;
                      arc (Projected.sx p) (Projected.sy p)
                          (Num 4) (Num 0) (Num 2 * Math.PI)%js;
                      fill])
                  projected)
    end in
  drawDataSet g cv pts color ctx = Some (ctx ++ added) /\
  List.length added
  = match pts with [] => 0%nat | _ :: _ => (4 * List.length pts + 5)%nat end.
Proof.
  intros projected added.
  assert (Ha : added = dataset_ops color projected) by reflexivity.
  rewrite Ha. split; [apply drawDataSet_ops|].
  destruct (dataset_ops_facts color projected) as (_ & _ & _ & _ & _ & Hlen).
  rewrite Hlen. unfold projected.
  destruct pts as [|p pts]; [reflexivity|].
  cbn [map]. rewrite !length_cons, length_map. reflexivity.
Qed.

(** [draw] returns normally and appends the clearing of the canvas, the
    grid, and the data sets that are shown. *)
Lemma draw_ops (g : Globals) (cv : Canvas) (ctx : context) :
  draw g cv ctx
  = Some (ctx
          ++ [clearRect (Num 0) (Num 0)
                (of_nat (canvas_width cv)) (of_nat (canvas_height cv))]
          ++ grid_ops g cv
          ++ (if showTorus g
              then dataset_ops "#0066cc" (map (projectPoint g cv) (torusData g))
              else [])
          ++ (if showComplex g
              then dataset_ops "#cc3300" (map (projectPoint g cv) (polyData g))
              else [])).
Proof.
  unfold draw. rewrite drawTorusGrid_ops. unfold push.
  destruct (showTorus g), (showComplex g);
    rewrite ?drawDataSet_ops; rewrite <- ?app_assoc; cbn [app];
      rewrite ?app_nil_r; reflexivity.
Qed.

(** X23.  [draw] returns normally, and a frame is, operation by
    operation: the clearing of the whole canvas, the grid, then, if the
    torus box is ticked, the polyline and the markers of the torus data in
    blue, then, if the other box is ticked, those of the polynomial data in
    red.  In every state the program can reach a hidden surface has no
    stored points, so the frame is then the clearing, the grid, and the
    polyline and markers of all the stored points. *)
Theorem draw_frame
        (parseInt : jsstring -> number -> number) (actions : list action)
        (g : Globals) (cv : Canvas) (ctx : context) :
  let clear :=
    clearRect (Num 0) (Num 0) (of_nat (canvas_width cv))
              (of_nat (canvas_height cv)) in
  let torus gl := dataset_ops "#0066cc" (map (projectPoint gl cv) (torusData gl)) in
  let poly gl := dataset_ops "#cc3300" (map (projectPoint gl cv) (polyData gl)) in
  draw g cv ctx
  = Some (ctx ++ [clear] ++ grid_ops g cv
          ++ (if showTorus g then torus g else [])
          ++ (if showComplex g then poly g else [])) /\
  let g' := run_actions parseInt initial actions in
  draw g' cv ctx = Some (ctx ++ [clear] ++ grid_ops g' cv ++ torus g' ++ poly g').
Proof.
  intros clear torus poly. split; [apply draw_ops|].
  intros g'.
  destruct (@run_actions_ok parseInt actions initial initial_program_ok)
    as (_ & Hht & Hhp & _).
  fold g' in Hht, Hhp.
  assert (Ht : (if showTorus g' then torus g' else []) = torus g').
  { destruct (showTorus g'); [reflexivity|]. unfold torus. rewrite Hht; reflexivity. }
  assert (Hp : (if showComplex g' then poly g' else []) = poly g').
  { destruct (showComplex g'); [reflexivity|]. unfold poly. rewrite Hhp; reflexivity. }
  rewrite draw_ops. fold clear. fold (torus g') (poly g'). rewrite Ht, Hp.
  reflexivity.
Qed.

(** X24.  When both checkboxes are cleared and the text is not empty,
    [updateVisualisation] stores no points at all and still reports an
    encoding: the list of surfaces being empty, the status line ends in
    [on .] with no surface named. *)
Theorem status_without_surfaces
        (parseInt : jsstring -> number -> number) (doc : Document) (g : Globals) :
  showTorus_checked doc = false -> showComplex_checked doc = false ->
  inputText_value doc <> [] ->
  let out := updateVisualisation parseInt doc g in
  let n := List.length (inputText_value doc) in
  torusData (snd (fst out)) = [] /\
  polyData (snd (fst out)) = [] /\
  status_textContent (snd out)
  = ("Encoded " ++ string_of_nat n ++ " character"
     ++ (if Nat.eqb n 1 then EmptyString else "s") ++ " on .")%string.
Proof.
  intros Ht Hp Hne out n. subst out n. unfold updateVisualisation.
  rewrite Ht, Hp. cbn [fst snd torusData polyData andb set_status status_textContent].
  destruct (inputText_value doc) as [|c text]; [contradiction|].
  split; [reflexivity|]. split; reflexivity.
Qed.

Lemma status_without_surfaces_witness :
  status_textContent
    (snd (updateVisualisation DecimalHost.parseInt
            {| inputText_value := lit "Hi";
               key1_value := lit "3"; mod1_value := lit "5";
               key2_value := lit "2"; mod2_value := lit "7";
               key3_value := lit "1"; mod3_value := lit "2";
               showTorus_checked := false; showComplex_checked := false;
               status_textContent := EmptyString |} initial))
  = "Encoded 2 characters on ."%string.
Proof.
  apply (@status_without_surfaces DecimalHost.parseInt
           {| inputText_value := lit "Hi";
              key1_value := lit "3"; mod1_value := lit "5";
              key2_value := lit "2"; mod2_value := lit "7";
              key3_value := lit "1"; mod3_value := lit "2";
              showTorus_checked := false; showComplex_checked := false;
              status_textContent := EmptyString |} initial);
    [reflexivity | reflexivity | discriminate].
Defined.
